(** * nano-tts-deno: the hash engine, the text segmenter, the header forge
      and the ordered chunk assembler of [NanoAITTS] (nano_tts.ts)

    The development follows the TypeScript class method by method.  JavaScript
    numbers that hold integers are [Z]; the 32-bit behaviour of the bitwise
    operators is written out (ToInt32 / ToUint32).  A JavaScript string is
    the list of its UTF-16 code units, because [length], [charCodeAt],
    [split] and [trim] all work on code units. *)

From Stdlib Require Import ZArith Lia Bool String Ascii List Permutation Sorted.
From Stdlib Require Import DecimalString.
From stdpp Require Import base list gmap.
Import ListNotations.

(** ** JavaScript strings *)

Definition jsstring : Type := list Z.

(** A literal of the source, all of whose characters are below U+0100. *)
Definition str (s : string) : jsstring :=
  List.map (fun a => Z.of_nat (nat_of_ascii a)) (list_ascii_of_string s).

(** [s.charCodeAt(i)]; the loops below only ask for indices inside [s]. *)
Definition charCodeAt (s : jsstring) (i : nat) : Z := nth i s 0%Z.

(** ** 32-bit integer operators of JavaScript *)

Module JS.
Local Open Scope Z_scope.

Definition two31 : Z := 2147483648.
Definition two32 : Z := 4294967296.

Definition ToInt32 (x : Z) : Z := (x + two31) mod two32 - two31.
Definition ToUint32 (x : Z) : Z := x mod two32.

(** [x << n] *)
Definition shl (x n : Z) : Z := ToInt32 (Z.shiftl (ToInt32 x) (ToUint32 n mod 32)).
(** [x >>> n] *)
Definition ushr (x n : Z) : Z := Z.shiftr (ToUint32 x) (ToUint32 n mod 32).
(** [x & y] *)
Definition and (x y : Z) : Z := ToInt32 (Z.land (ToInt32 x) (ToInt32 y)).
(** [x | y] *)
Definition or (x y : Z) : Z := ToInt32 (Z.lor (ToInt32 x) (ToInt32 y)).
(** [x ^ y] *)
Definition xor (x y : Z) : Z := ToInt32 (Z.lxor (ToInt32 x) (ToInt32 y)).

Definition int32 (x : Z) : Prop := - two31 <= x < two31.

End JS.

(** ** [_e]: the integer hash *)

Module Hash.
Local Open Scope Z_scope.

Definition HASH_MASK_1 : Z := 268435455.
Definition HASH_MASK_2 : Z := 266338304.
Definition INT32_MAX : Z := 2147483647.

(** One turn of the [for] loop of [_e], from [at] and [st = nt.charCodeAt(i)]. *)
Definition _e_body (at_ st : Z) : Z :=
  let at1 := JS.or (JS.and (JS.shl at_ 6) HASH_MASK_1 + st + JS.shl st 14) 0 in
  let it := JS.and at1 HASH_MASK_2 in
  if negb (it =? 0) then JS.xor at1 (JS.ushr it 21) else at1.

(** The loop [for (let i = n - 1; i >= 0; i--) a = body(i, a)]. *)
Fixpoint for_down {A : Type} (n : nat) (body : nat -> A -> A) (a : A) : A :=
  match n with
  | O => a
  | S i => for_down i body (body i a)
  end.

Definition _e (nt : jsstring) : Z :=
  for_down (List.length nt) (fun i at_ => _e_body at_ (charCodeAt nt i)) 0.

(** *** The computation as the specification words it *)

Definition MASK1 : Z := 0x0FFFFFFF.
Definition MASK2 : Z := 0x0FE00000.

Definition truncateToSigned32 (x : Z) : Z :=
  let r := x mod 2 ^ 32 in if r <? 2 ^ 31 then r else r - 2 ^ 32.

Definition ref_step (a c : Z) : Z :=
  let a1 := truncateToSigned32 (Z.land (Z.shiftl a 6) MASK1 + c + Z.shiftl c 14) in
  let folded := Z.land a1 MASK2 in
  if folded =? 0 then a1 else Z.lxor a1 (Z.shiftr folded 21).

(** Accumulator starts at 0; the characters are taken last to first. *)
Definition hash_ref (s : jsstring) : Z := fold_left ref_step (rev s) 0.

End Hash.

(** ** [splitText]: the text segmenter *)

Module Segmenter.
Local Open Scope Z_scope.

(** The class [[。？！.?!\n]] of the first regular expression. *)
Definition is_sentence_delimiter (c : Z) : bool :=
  (c =? 0x3002) || (c =? 0xFF1F) || (c =? 0xFF01)
  || (c =? 46) || (c =? 63) || (c =? 33) || (c =? 10).

(** The class [[,，]] of the second regular expression. *)
Definition is_comma (c : Z) : bool := (c =? 44) || (c =? 0xFF0C).

(** [if (s)] on a string: true unless the string is empty. *)
Definition truthy (s : jsstring) : bool :=
  match s with [] => false | _ :: _ => true end.

(** [s.split(/([C])/)] for a one-character class [C] inside a capturing
    group: the pieces between the matches, each match spliced in after the
    piece it ends.  [cur] is the piece being read.  On the empty string the
    answer is the one-element array holding the empty string. *)
Fixpoint split_capture (cls : Z -> bool) (s cur : jsstring) : list jsstring :=
  match s with
  | [] => [cur]
  | c :: s' =>
      if cls c then cur :: [c] :: split_capture cls s' []
      else split_capture cls s' (cur ++ [c])
  end.

Definition split (cls : Z -> bool) (s : jsstring) : list jsstring :=
  split_capture cls s [].

(** The loop [for (let i = 0; i < sentenceParts.length; i += 2)]: it takes the
    parts two by two; [sentenceParts[i + 1]] is [undefined] past the end, and
    [undefined || ""] is the empty string. *)
Fixpoint sentences_of (sentenceParts : list jsstring) : list jsstring :=
  match sentenceParts with
  | [] => []
  | content :: rest =>
      match rest with
      | [] =>
          if truthy content || truthy [] then [content ++ []] else []
      | delimiter :: rest' =>
          (if truthy content || truthy delimiter
           then [content ++ delimiter] else [])
            ++ sentences_of rest'
      end
  end.

(** [if (current) result.push(current)] *)
Definition push_current (result : list jsstring) (current : jsstring)
    : list jsstring :=
  if truthy current then result ++ [current] else result.

(** One turn of the inner loop over [commaParts], on the pair ([result],
    [current]). *)
Definition pack_step (maxLen : Z) (st : list jsstring * jsstring)
    (part : jsstring) : list jsstring * jsstring :=
  let '(result, current) := st in
  if Z.of_nat (List.length (current ++ part)) <=? maxLen
  then (result, current ++ part)
  else (push_current result current, part).

(** One turn of the loop [for (const sentence of sentences)], on [result]. *)
Definition tier2 (maxLen : Z) (result : list jsstring) (sentence : jsstring)
    : list jsstring :=
  if Z.of_nat (List.length sentence) <=? maxLen then result ++ [sentence]
  else
    let commaParts := split is_comma sentence in
    let '(result1, current) :=
      fold_left (pack_step maxLen) commaParts (result, []) in
    push_current result1 current.

(** White space and line terminators, as [String.prototype.trim] strips
    them. *)
Definition is_white_space (c : Z) : bool :=
  (c =? 9) || (c =? 10) || (c =? 11) || (c =? 12) || (c =? 13) || (c =? 32)
  || (c =? 0xA0) || (c =? 0x1680) || ((0x2000 <=? c) && (c <=? 0x200A))
  || (c =? 0x2028) || (c =? 0x2029) || (c =? 0x202F) || (c =? 0x205F)
  || (c =? 0x3000) || (c =? 0xFEFF).

Fixpoint trimStart (s : jsstring) : jsstring :=
  match s with
  | [] => []
  | c :: s' => if is_white_space c then trimStart s' else s
  end.

Definition trim (s : jsstring) : jsstring :=
  rev (trimStart (rev (trimStart s))).

(** The sentences of the first tier. *)
Definition sentences (text : jsstring) : list jsstring :=
  sentences_of (split is_sentence_delimiter text).

(** [result] just before the final [filter]. *)
Definition unfiltered (text : jsstring) (maxLen : Z) : list jsstring :=
  fold_left (tier2 maxLen) (sentences text) [].

(** [splitText(text, maxLen)]; a call that leaves [maxLen] out passes 200. *)
Definition splitText (text : jsstring) (maxLen : Z) : list jsstring :=
  if Z.of_nat (List.length text) <=? maxLen then [text]
  else
    List.filter (fun s => 0 <? Z.of_nat (List.length (trim s)))
      (unfiltered text maxLen).

(** *** Vocabulary of the statements *)

(** A segment with nothing left after [trim]. *)
Definition blank (s : jsstring) : Prop := trim s = [].

(** [kept] is [pieces] with some blank pieces taken out. *)
Inductive drops_blank : list jsstring -> list jsstring -> Prop :=
  | drops_nil : drops_blank [] []
  | drops_keep s pieces kept :
      drops_blank pieces kept -> drops_blank (s :: pieces) (s :: kept)
  | drops_drop s pieces kept :
      blank s -> drops_blank pieces kept -> drops_blank (s :: pieces) kept.

(** A cut of the text into [u] before and [v] after leaves every sentence
    delimiter with the content it ends: when [v] begins with a sentence
    delimiter, that content is empty ([u] is empty or ends with a sentence
    delimiter itself). *)
Definition delimiter_attached (u v : jsstring) : Prop :=
  forall d v',
    v = d :: v' -> is_sentence_delimiter d = true ->
    u = [] \/ exists u' c, u = u' ++ [c] /\ is_sentence_delimiter c = true.

(** A cut of the text into [u] before and [v] after that takes a sentence
    delimiter [d] from its content: it falls in a sentence [w ++ [c; d]] of
    the text that is longer than [maxLen], between the comma [c] and the
    delimiter [d] that ends the sentence. *)
Definition comma_before_delimiter (text : jsstring) (maxLen : Z)
    (u v : jsstring) : Prop :=
  exists u' w c d v',
    u = u' ++ w ++ [c] /\ v = d :: v'
    /\ is_comma c = true /\ is_sentence_delimiter d = true
    /\ In (w ++ [c; d]) (sentences text)
    /\ maxLen < Z.of_nat (List.length (w ++ [c; d])).

(** A sentence delimiter in [s] can only be its last character. *)
Definition delimiter_last (s : jsstring) : Prop :=
  forall pre d post,
    s = pre ++ d :: post -> is_sentence_delimiter d = true -> post = [].

End Segmenter.

(** ** [getHeaders]: the header forge *)

Module Headers.

(** The field [ua] of the class. *)
Definition ua : jsstring :=
  str "Mozilla/5.0 (Windows NT 10.0; Win64; x64) AppleWebKit/537.36 (KHTML, like Gecko) Chrome/117.0.0.0 Safari/537.36".

(** What one call of [getHeaders] draws from the clock and from
    [Math.random]: the strings its calls [this.getIso8601Time()] and
    [this.generateMid()] return. *)
Record ambient : Type := {
  getIso8601Time : jsstring;
  generateMid : jsstring
}.

Section WithDigest.

(** [md5]: the digest of the standard library, taken as given. *)
Variable md5 : jsstring -> jsstring.

(** The object literal is built field by field, in the order written. *)
Definition getHeaders (env : ambient) : gmap string jsstring :=
  let device := str "Web" in
  let ver := str "1.2" in
  let timestamp := getIso8601Time env in
  let accessToken := generateMid env in
  let zmUa := md5 ua in
  let zmTokenStr := device ++ timestamp ++ ver ++ accessToken ++ zmUa in
  let zmToken := md5 zmTokenStr in
  <["User-Agent"%string := ua]>
    (<["zm-ua"%string := zmUa]>
      (<["zm-ver"%string := ver]>
        (<["zm-token"%string := zmToken]>
          (<["access-token"%string := accessToken]>
            (<["timestamp"%string := timestamp]>
              (<["device-platform"%string := device]> ∅)))))).

End WithDigest.

(** The seven field names. *)
Definition field_names : gset string :=
  {[ "device-platform"; "timestamp"; "access-token"; "zm-token"; "zm-ver";
     "zm-ua"; "User-Agent" ]}%string.

End Headers.

(** ** [getAudioChunks]: the ordered chunk assembler *)

Module Chunks.

Definition Uint8Array : Type := list Byte.byte.

(** What [getAudio] comes to for one segment.
    - [Rejected]: [getAudio] throws ([encodeURIComponent] refuses the text
      before any request is sent, [fetch] rejects on a network error or on
      the timeout, or the status is not OK);
    - [NoBody]: the response has no body, so [reader] is undefined;
    - [Body chunks ok]: [reader.read()] delivers [chunks] one by one, then
      reports [done] ([ok = true]) or throws ([ok = false]: the connection
      breaks or the timeout fires while the body is read). *)
Inductive outcome : Type :=
  | Rejected
  | NoBody
  | Body (chunks : list Uint8Array) (ok : bool).

(** What an observer of the generator sees.  [Yield i b]: the generator hands
    out buffer [b]; the index [i] of the segment it came from is kept for the
    statements.  [Launch i]: the task of segment [i] starts, that is,
    [getAudio] is called for it; whether a request leaves depends on
    [encodeURIComponent], which [getAudio] calls first.  [Settle i]: the task
    of segment [i] is over, with or without a result. *)
Inductive event : Type :=
  | Launch (i : nat)
  | Settle (i : nat)
  | Yield (i : nat) (b : Uint8Array).

(** [merged.set(chunk, offset)] *)
Definition set_at (merged chunk : Uint8Array) (offset : nat) : Uint8Array :=
  take offset merged ++ chunk ++ drop (offset + length chunk) merged.

(** The merge of [fetchOne]: a zeroed array of the total length, then every
    chunk copied at its offset. *)
Definition merge (chunks : list Uint8Array) : Uint8Array :=
  let totalLen := fold_left (fun acc c => acc + length c) chunks 0 in
  let merged := replicate totalLen Byte.x00 in
  fst (fold_left
         (fun '(merged, offset) chunk =>
            (set_at merged chunk offset, offset + length chunk))
         chunks (merged, 0)).

Section Run.

(** The segments, and what happens to the request of each of them:
    [fetch i] is the outcome of [this.getAudio(texts[i], voice)], which the
    upstream and the network decide. *)
Variable texts : list jsstring.
Variable fetch : nat -> outcome.

(** [fetchOne(index)]: its only lasting effect is the write
    [results[index] = merged], done when the body was read to its end. *)
Definition fetchOne (index : nat) (results : list (option Uint8Array))
    : list (option Uint8Array) :=
  match fetch index with
  | Body chunks true => <[index := Some (merge chunks)]> results
  | _ => results
  end.

(** [await Promise.all(batchPromises)]: the tasks settle one after the other,
    in the order [order]. *)
Definition settle_all (order : list nat) (results : list (option Uint8Array))
    : list (option Uint8Array) :=
  fold_left (fun r i => fetchOne i r) order results.

(** [getAudioChunksSerial]: one segment after the other, every chunk handed
    out as soon as it is read. *)
Definition serial_one (i : nat) : list event :=
  [Launch i]
  ++ match fetch i with
     | Body chunks _ => List.map (Yield i) chunks
     | _ => []
     end
  ++ [Settle i].

Definition getAudioChunksSerial : list event :=
  flat_map serial_one (seq 0 (length texts)).

(** The loop [for (let i = batchStart; i < batchEnd; i++)] that yields. *)
Definition yield_batch (results : list (option Uint8Array))
    (batchStart batchEnd : nat) : list event :=
  flat_map
    (fun i => match results !! i with
              | Some (Some b) => [Yield i b]
              | _ => []
              end)
    (seq batchStart (batchEnd - batchStart)).

(** One batch.  The tasks are launched in index order; they settle in the
    order [order], which the network decides; [Promise.all] returns once all
    have settled; then the results are yielded in index order. *)
Definition run_batch (order : list nat) (batchStart batchEnd : nat)
    (st : list (option Uint8Array) * list event)
    : list (option Uint8Array) * list event :=
  let '(results, trace) := st in
  let launched := List.map Launch (seq batchStart (batchEnd - batchStart)) in
  let results' := settle_all order results in
  let settled := List.map Settle order in
  (results',
   trace ++ launched ++ settled ++ yield_batch results' batchStart batchEnd).

(** The loop [for (let batchStart = 0; batchStart < texts.length;
    batchStart += concurrency)].  [sched batchStart] is the order in which
    the tasks of the batch starting at [batchStart] settle. *)
Fixpoint batches (sched : nat -> list nat) (concurrency : nat) (fuel : nat)
    (batchStart : nat) (st : list (option Uint8Array) * list event)
    : option (list event) :=
  if length texts <=? batchStart then Some (snd st)
  else
    match fuel with
    | O => None
    | S fuel' =>
        let batchEnd := Nat.min (batchStart + concurrency) (length texts) in
        batches sched concurrency fuel' (batchStart + concurrency)
          (run_batch (sched batchStart) batchStart batchEnd st)
    end.

(** [getAudioChunks(texts, voice, concurrency)], run to the end of the
    generator; [concurrency] is an integer (3 when the call leaves it out),
    and the batched branch is only taken when it is above 1.  [None] stands for a loop that did not end
    within [texts.length] turns. *)
Definition getAudioChunks (sched : nat -> list nat) (concurrency : Z)
    : option (list event) :=
  if (concurrency <=? 1)%Z || (length texts <=? 2)
  then Some getAudioChunksSerial
  else
    let results := replicate (length texts) None in
    batches sched (Z.to_nat concurrency) (length texts) 0 (results, []).

End Run.

(** The buffers handed out, in the order they are handed out. *)
Definition emitted (trace : list event) : list (nat * Uint8Array) :=
  flat_map (fun e => match e with Yield i b => [(i, b)] | _ => [] end) trace.

(** A body read to its end. *)
Definition succeeded (o : outcome) : option Uint8Array :=
  match o with Body chunks true => Some (merge chunks) | _ => None end.

(** The assembled buffers of the segments that succeeded, by ascending index. *)
Definition successes (fetch : nat -> outcome) (n : nat) : list (nat * Uint8Array) :=
  flat_map
    (fun i => match succeeded (fetch i) with Some b => [(i, b)] | None => [] end)
    (seq 0 n).

(** The indices of the batch that starts at [batchStart]. *)
Definition batch_indices (n concurrency batchStart : nat) : list nat :=
  seq batchStart (Nat.min (batchStart + concurrency) n - batchStart).

(** [sched] gives every batch a completion order: the tasks of the batch,
    each once, in any order. *)
Definition valid_sched (n concurrency : nat) (sched : nat -> list nat) : Prop :=
  forall k,
    k * concurrency < n ->
    sched (k * concurrency) ≡ₚ batch_indices n concurrency (k * concurrency).

(** What segment [i] hands out once its batch is complete. *)
Definition yield_of (fetch : nat -> outcome) (i : nat) : list event :=
  match succeeded (fetch i) with Some b => [Yield i b] | None => [] end.

(** The events of the batch that starts at [batchStart], for [n] segments. *)
Definition batch_events (fetch : nat -> outcome) (n concurrency : nat)
    (sched : nat -> list nat) (batchStart : nat) : list event :=
  let len := Nat.min (batchStart + concurrency) n - batchStart in
  List.map Launch (seq batchStart len)
  ++ List.map Settle (sched batchStart)
  ++ flat_map (yield_of fetch) (seq batchStart len).

(** The barrier, read along a trace; [settled] lists the tasks that have
    settled so far.  Segment [i] is in batch [i / concurrency].  A buffer of
    a batch is handed out only when every task of that batch has settled; a
    task is launched only when every task of the earlier batches has. *)
Fixpoint barrier (n concurrency : nat) (settled : list nat)
    (trace : list event) : Prop :=
  match trace with
  | [] => True
  | Launch j :: t =>
      (forall i, i / concurrency < j / concurrency -> In i settled)
      /\ barrier n concurrency settled t
  | Settle i :: t => barrier n concurrency (settled ++ [i]) t
  | Yield i _ :: t =>
      (forall j, j < n -> j / concurrency = i / concurrency -> In j settled)
      /\ barrier n concurrency settled t
  end.

(** The tasks that settle in a trace. *)
Definition settled_in (trace : list event) : list nat :=
  flat_map (fun e => match e with Settle i => [i] | _ => [] end) trace.

(** The chunks a request delivers before it ends, well or not. *)
Definition delivered (o : outcome) : list Uint8Array :=
  match o with Body chunks _ => chunks | _ => [] end.

(** *** Loop invariants *)

(** The slots of [results] from [batchStart] on are still empty. *)
Definition fresh_from (n batchStart : nat)
    (results : list (option Uint8Array)) : Prop :=
  length results = n
  /\ forall j, batchStart <= j < n -> results !! j = Some None.

(** What holds between two batches: the buffers handed out so far are the
    successes of the segments before [batchStart], by ascending index; the
    barrier was respected; every task before [batchStart] has settled. *)
Definition between_batches (fetch : nat -> outcome) (n concurrency : nat)
    (batchStart : nat) (trace : list event) : Prop :=
  (exists k, batchStart = k * concurrency)
  /\ emitted trace = successes fetch (Nat.min batchStart n)
  /\ barrier n concurrency [] trace
  /\ (forall i, i < Nat.min batchStart n -> In i (settled_in trace)).

End Chunks.

(** A UTF-16 code unit, as [charCodeAt] gives them. *)
Definition code_unit (c : Z) : Prop := (0 <= c <= 65535)%Z.

(** ** [generateUniqueHash] and [generateMid]: the session identifier *)

Module Session.
Local Open Scope Z_scope.

(** [String(n)] for an integer [n]: its decimal digits, after a minus sign
    when it is negative. *)
Definition Number_toString (n : Z) : jsstring :=
  str (NilZero.string_of_int (Z.to_int n)).

(** [s.replace(p, r)] for a pattern [p] of one character and a replacement
    [r] without dollar sign: the first occurrence only. *)
Fixpoint replace_char (p : Z) (r : jsstring) (s : jsstring) : jsstring :=
  match s with
  | [] => []
  | c :: s' => if c =? p then r ++ s' else c :: replace_char p r s'
  end.

(** The template literal of [generateUniqueHash], with [ver = 1.0] printed
    as [1]. *)
Definition descriptor : jsstring :=
  str "chrome" ++ Number_toString 1 ++ str "zh-CN" ++ str "Win32"
  ++ Headers.ua ++ Number_toString 1920 ++ str "x" ++ Number_toString 1080
  ++ Number_toString 24 ++ str "https://bot.n.cn/chat".

(** The loop [while (it) { nt += String(it ^ at); it -= 1; at += 1; }];
    [None] when [fuel] turns were not enough. *)
Fixpoint suffix_loop (fuel : nat) (nt : jsstring) (at_ it : Z)
    : option (jsstring * Z) :=
  if it =? 0 then Some (nt, at_)
  else
    match fuel with
    | O => None
    | S fuel' =>
        suffix_loop fuel' (nt ++ Number_toString (JS.xor it at_))
          (at_ + 1) (it - 1)
    end.

(** The product of two numbers that are integers, as a double gives it: the
    exact product rounded to 53 significant bits, ties to even. *)
Definition round_to_double (x : Z) : Z :=
  if x <? 2 ^ 53 then x
  else
    let e := Z.log2 x - 52 in
    let q := Z.shiftr x e in
    let r := x - Z.shiftl q e in
    let half := 2 ^ (e - 1) in
    let q' := if (half <? r) || ((r =? half) && Z.odd q) then q + 1 else q in
    Z.shiftl q' e.

(** The 32-bit word [(randomVal ^ this._e(nt)) >>> 0] of
    [generateUniqueHash]; [randomVal] is
    [Math.round(Math.random() * INT32_MAX)]. *)
Definition unique_word (randomVal : Z) : option Z :=
  let nt := descriptor in
  let at_ := Z.of_nat (List.length nt) in
  match suffix_loop 1 nt at_ 1 with
  | Some (nt', _) => Some (JS.ushr (JS.xor randomVal (Hash._e nt')) 0)
  | None => None
  end.

Definition generateUniqueHash (randomVal : Z) : option Z :=
  match unique_word randomVal with
  | Some hash => Some (round_to_double (hash * Hash.INT32_MAX))
  | None => None
  end.

Definition domain : jsstring := str "https://bot.n.cn".

(** [generateMid]; [uniqueHash] is [String(this.generateUniqueHash())] and
    [time] is [String(Date.now() + Math.random() + Math.random())], two
    numbers that are not integers in general and that the runtime prints. *)
Definition generateMid (uniqueHash time : jsstring) : jsstring :=
  let rt := Number_toString (Hash._e domain) ++ uniqueHash ++ time in
  firstn 32 (replace_char 46 (str "e") rt).

(** A decimal digit, the dot, the letter [e]. *)
Definition is_digit (c : Z) : bool := (48 <=? c) && (c <=? 57).
Definition is_dot (c : Z) : bool := c =? 46.
Definition is_e (c : Z) : bool := c =? 101.

End Session.

(** ** Reading a trace of [getAudioChunks] *)

Module Flight.
Import Chunks.

(** The tasks a trace starts (the calls of [getAudio]), in order. *)
Definition launches (trace : list event) : list nat :=
  flat_map (fun e => match e with Launch i => [i] | _ => [] end) trace.



(** The numbers of tasks started and of tasks settled never differ by more
    than [c] along the trace. *)
Definition window (c : nat) (trace : list event) : Prop :=
  forall pre post,
    trace = pre ++ post ->
    length (settled_in pre) <= length (launches pre)
    /\ length (launches pre) <= length (settled_in pre) + c.

(** Every task that settles in the trace was started before. *)
Definition launched_first (trace : list event) : Prop :=
  forall pre post,
    trace = pre ++ post ->
    forall i, In i (settled_in pre) -> In i (launches pre).

(** The tasks in flight after the events [pre]: started and not settled. *)
Definition in_flight (pre : list event) : list nat :=
  List.filter (fun i => negb (bool_decide (i ∈ settled_in pre)))
    (launches pre).

(** At every point of the trace, a task that has settled was started
    before, and the tasks in flight are [c] at most. *)
Definition in_flight_at_most (c : nat) (trace : list event) : Prop :=
  forall pre post,
    trace = pre ++ post ->
    (forall i, In i (settled_in pre) -> In i (launches pre))
    /\ length (in_flight pre) <= c.

(** All the bytes handed out, end to end: what a consumer that appends the
    buffers as they come holds at the end. *)
Definition audio (trace : list event) : Uint8Array :=
  concat (List.map snd (emitted trace)).

End Flight.

(** ** [loadVoices]: the voice catalog *)

Module Voices.

Section WithNumbers.

(** The numbers of JavaScript, of which only their truth value matters here
    (false for zero and NaN). *)
Variable num : Type.
Variable num_truthy : num -> bool.

(** Whether the runtime stores a property named [__proto__] like any other
    (Deno removes the accessor of [Object.prototype], so it does), or lets
    the assignment change the prototype and store nothing. *)
Variable proto_is_plain : bool.

(** A value as [response.json()] gives it, and [undefined] for what a
    property access finds missing.  An object is the list of its own
    properties, each name once. *)
#[warnings="-register-all"]
Inductive jsval : Type :=
  | JUndefined
  | JNull
  | JBool (b : bool)
  | JNum (x : num)
  | JStr (s : jsstring)
  | JArr (items : list jsval)
  | JObj (fields : list (jsstring * jsval)).

(** [!!v] *)
Definition truthy (v : jsval) : bool :=
  match v with
  | JUndefined | JNull => false
  | JBool b => b
  | JNum x => num_truthy x
  | JStr s => match s with [] => false | _ => true end
  | JArr _ | JObj _ => true
  end.

Fixpoint assoc (k : jsstring) (fields : list (jsstring * jsval))
    : option jsval :=
  match fields with
  | [] => None
  | (k', v) :: rest => if decide (k' = k) then Some v else assoc k rest
  end.

(** [v.k] for a name [k] that no prototype defines ([data], [list], [tag],
    [title], [icon], [voice], [input], [stream]), on a value other than
    [null] and [undefined]. *)
Definition get (v : jsval) (k : jsstring) : jsval :=
  match v with
  | JObj fields => match assoc k fields with Some x => x | None => JUndefined end
  | _ => JUndefined
  end.

(** [typeof v === "object"] *)
Definition is_object (v : jsval) : bool :=
  match v with JNull | JArr _ | JObj _ => true | _ => false end.

(** [Array.isArray(v)] *)
Definition is_array (v : jsval) : bool :=
  match v with JArr _ => true | _ => false end.

(** The items a [for ... of] goes through. *)
Definition items_of (v : jsval) : list jsval :=
  match v with JArr items => items | _ => [] end.

(** [a || b] *)
Definition or_else (a b : jsval) : jsval := if truthy a then a else b.

Record VoiceInfo : Type := { name : jsval; iconUrl : jsval }.

Definition DeepSeek : jsstring := str "DeepSeek".

(** [{ name: "DeepSeek (默认)", iconUrl: "" }] *)
Definition fallback_voice : VoiceInfo :=
  {| name := JStr (str "DeepSeek (" ++ [0x9ED8; 0x8BA4] ++ str ")")%Z;
     iconUrl := JStr [] |}.

(** The entry an item of the list gives, when
    [item && typeof item.tag === "string"]. *)
Definition voice_of (item : jsval) : option (jsstring * VoiceInfo) :=
  if truthy item then
    match get item (str "tag") with
    | JStr tag =>
        Some (tag, {| name := or_else (get item (str "title")) (JStr tag);
                      iconUrl := or_else (get item (str "icon")) (JStr []) |})
    | _ => None
    end
  else None.

(** [this.voices[item.tag] = { ... }] under its test. *)
Definition add_voice (voices : gmap jsstring VoiceInfo) (item : jsval)
    : gmap jsstring VoiceInfo :=
  match voice_of item with
  | Some (tag, info) =>
      if decide (tag = str "__proto__") then
        if proto_is_plain then <[tag := info]> voices else voices
      else <[tag := info]> voices
  | None => voices
  end.

(** What the request of the catalog comes to: [fetch] rejects (network,
    timeout), the status is not OK, the body is not JSON, or the body
    parses. *)
Inductive catalog_reply : Type :=
  | FetchFailed
  | HttpError
  | BadJson
  | Parsed (data : jsval).

(** The [catch] block. *)
Definition fall_back (voices : gmap jsstring VoiceInfo)
    : gmap jsstring VoiceInfo :=
  <[DeepSeek := fallback_voice]> voices.

(** [loadVoices]: from the catalog before the call to the catalog after. *)
Definition loadVoices (voices : gmap jsstring VoiceInfo)
    (reply : catalog_reply) : gmap jsstring VoiceInfo :=
  match reply with
  | Parsed data =>
      if negb (truthy data) || negb (is_object data) then fall_back voices
      else if negb (truthy (get data (str "data")))
              || negb (is_array (get (get data (str "data")) (str "list")))
      then fall_back voices
      else
        let list := items_of (get (get data (str "data")) (str "list")) in
        let voices' := fold_left add_voice list ∅ in
        if size voices' =? 0 then fall_back voices' else voices'
  | _ => fall_back voices
  end.

(** The reply has the shape the checks ask for, with [list] as its list. *)
Definition well_shaped (data : jsval) (list : list jsval) : Prop :=
  exists fields fields',
    data = JObj fields
    /\ assoc (str "data") fields = Some (JObj fields')
    /\ assoc (str "list") fields' = Some (JArr list).

(** The item is stored under [tag]. *)
Definition stores (item : jsval) (tag : jsstring) (info : VoiceInfo) : Prop :=
  voice_of item = Some (tag, info)
  /\ (tag = str "__proto__" -> proto_is_plain = true).

End WithNumbers.

End Voices.

(** ** [getAudio]: the request sent upstream *)

Module Upstream.

Record request : Type := {
  url : jsstring;
  method : jsstring;
  headers : gmap string jsstring;
  body : jsstring;
  timeout : Z
}.

Definition FETCH_TIMEOUT_MS : Z := 30000.

Section WithCodecs.

Variable md5 : jsstring -> jsstring.

(** [encodeURIComponent], which throws on a lone surrogate. *)
Variable encodeURIComponent : jsstring -> option jsstring.

(** What [getAudio] hands to [fetch]; [None] when [encodeURIComponent]
    throws. *)
Definition getAudio_request (env : Headers.ambient) (text voice : jsstring)
    : option request :=
  let url := str "https://bot.n.cn/api/tts/v1?roleid=" ++ voice in
  let headers := Headers.getHeaders md5 env in
  let headers :=
    <["Content-Type"%string := str "application/x-www-form-urlencoded"]>
      headers in
  match encodeURIComponent text with
  | Some encoded =>
      let body :=
        str "&text=" ++ encoded ++ str "&audio_type=mp3&format=stream" in
      Some {| url := url; method := str "POST"; headers := headers;
              body := body; timeout := FETCH_TIMEOUT_MS |}
  | None => None
  end.

End WithCodecs.

End Upstream.

(** ** [server.ts]: the request handler *)

Module Server.
Import Voices Chunks.

Section WithNumbers.

Variable num : Type.
Variable num_truthy : num -> bool.

Definition MAX_INPUT_LENGTH : Z := 4000.

Definition CORS_HEADERS : gmap string jsstring :=
  <["Access-Control-Allow-Headers"%string :=
      str "Content-Type, Authorization"]>
    (<["Access-Control-Allow-Methods"%string := str "GET, POST, OPTIONS"]>
       (<["Access-Control-Allow-Origin"%string := str "*"]> ∅)).

(** What the handler reads of a request: the method, the path of the URL,
    the [Authorization] header if there is one, and what [req.json()] gives
    ([None] when it throws).  The body is typed [any]: every JSON value is
    a possible body, and every JSON value a possible [voice], [input] or
    [stream]. *)
Record request : Type := {
  method : jsstring;
  pathname : jsstring;
  authorization : option jsstring;
  json : option (jsval num)
}.

(** The body of a response.  [JsonRuntimeError] is [{ error: e.message }]
    for an error [e] caught by the handler.  [AudioStream chunks closed] is
    the stream of the streaming answer: the chunks enqueued, then
    [controller.close()] ([closed = true]) or [controller.error(e)]. *)
Inductive payload : Type :=
  | Nothing
  | Text (s : jsstring)
  | JsonError (message : jsstring)
  | JsonRuntimeError
  | JsonModels (created : Z) (descriptions : gmap jsstring (jsval num))
  | Audio (bytes : Uint8Array)
  | AudioStream (chunks : list Uint8Array) (closed : bool).

(** A response: its status, the headers the handler gives it, its body. *)
Record response : Type := {
  status : Z;
  headers : gmap string jsstring;
  body : payload
}.

(** What the handler finds around it: the key, the start time, the catalog,
    what the upstream does with the request for a voice, a text and a
    segment index, the order in which the tasks of a batch settle, and the
    conversions of the runtime, each [None] when it throws:
    [encodeURIComponent] (on a lone surrogate), [String(v)] of an array or
    an object (on an object whose [toString] is not a function), and the
    comparisons [v > n] and [v <= n] of a value with a number. *)
Record environment : Type := {
  STATIC_API_KEY : jsstring;
  SERVICE_START_TIME : Z;
  voices : gmap jsstring (VoiceInfo num);
  upstream : jsstring -> jsstring -> nat -> outcome;
  sched : nat -> list nat;
  encodeURIComponent : jsstring -> option jsstring;
  ToString : jsval num -> option jsstring;
  GreaterThan : jsval num -> Z -> option bool;
  LessThanOrEqual : jsval num -> Z -> option bool
}.

(** [{ "Content-Type": "application/json", ...CORS_HEADERS }] *)
Definition json_headers : gmap string jsstring :=
  CORS_HEADERS ∪ {[ "Content-Type"%string := str "application/json" ]}.

Definition reply (status : Z) (headers : gmap string jsstring)
    (body : payload) : option (response * list event) :=
  Some ({| status := status; headers := headers; body := body |}, []).

(** The reply of the [catch] block, status 500. *)
Definition caught : option (response * list event) :=
  reply 500 json_headers JsonRuntimeError.

(** [`Bearer ${STATIC_API_KEY}`] *)
Definition bearer (env : environment) : jsstring :=
  str "Bearer " ++ STATIC_API_KEY env.

(** [!auth || auth !== `Bearer ${STATIC_API_KEY}`], negated. *)
Definition authorized (env : environment) (req : request) : bool :=
  match authorization req with
  | Some auth =>
      match auth with [] => false | _ => true end
      && bool_decide (auth = bearer env)
  | None => false
  end.

(** Whether [`${v}`] throws: only the conversion of an array or of an object
    can. *)
Definition unprintable (env : environment) (v : jsval num) : bool :=
  match v with
  | JArr _ _ | JObj _ _ =>
      match ToString env v with Some _ => false | None => true end
  | _ => false
  end.

(** [input.length > MAX_INPUT_LENGTH].  [input.length] is a count for a
    string or an array, the own property [length] of an object, and
    [undefined] for a number or a boolean; a comparison with [undefined] is
    false. *)
Definition too_long (env : environment) (input : jsval num) : option bool :=
  match input with
  | JStr _ text => Some (MAX_INPUT_LENGTH <? Z.of_nat (length text))%Z
  | JArr _ items => Some (MAX_INPUT_LENGTH <? Z.of_nat (length items))%Z
  | JObj _ _ =>
      match get num input (str "length") with
      | JUndefined _ => Some false
      | v => GreaterThan env v MAX_INPUT_LENGTH
      end
  | _ => Some false
  end.

(** Whether a log that prints [`${input.length}`] throws. *)
Definition length_log_throws (env : environment) (input : jsval num) : bool :=
  match input with
  | JObj _ _ => unprintable env (get num input (str "length"))
  | _ => false
  end.

(** [(voice && supportedVoices.includes(voice)) ? voice : "DeepSeek"] *)
Definition select_voice (env : environment) (voice : jsval num) : jsstring :=
  match voice with
  | JStr _ s =>
      if match s with [] => false | _ => true end
         && bool_decide (s ∈ dom (voices env))
      then s else DeepSeek
  | _ => DeepSeek
  end.

(** Whether [if (voice && voice !== selectedVoice) console.log(`...${voice}
    ...`)] throws. *)
Definition voice_log_throws (env : environment) (voice : jsval num)
    (selectedVoice : jsstring) : bool :=
  truthy num num_truthy voice
  && negb match voice with
          | JStr _ s => bool_decide (s = selectedVoice)
          | _ => false
          end
  && unprintable env voice.

(** What [tts.splitText(input, 200)] returns: the segments of a string, or
    the input itself as the only element when it is not a string and
    [text.length <= maxLen] holds of it. *)
Inductive segments : Type :=
  | Texts (chunks : list jsstring)
  | OneArray (items : list (jsval num))
  | OneObject.

(** [tts.splitText(input, 200)] on an [input] that is true; [None] when it
    throws: past the early return, [text.split] is a function on strings
    only. *)
Definition split_input (env : environment) (input : jsval num)
    : option segments :=
  match input with
  | JStr _ text => Some (Texts (Segmenter.splitText text 200))
  | JArr _ items =>
      if (Z.of_nat (length items) <=? 200)%Z then Some (OneArray items)
      else None
  | JObj _ _ =>
      match get num input (str "length") with
      | JUndefined _ => None
      | v =>
          match LessThanOrEqual env v 200 with
          | Some true => Some OneObject
          | _ => None
          end
      end
  | _ => None
  end.

(** [this.getAudio(text, voice)] of segment [i], seen from the generator.
    [text] is [String(text)], [None] when the conversion throws;
    [encodeURIComponent] runs before [fetch], and no request is sent when
    it throws. *)
Definition getAudio (env : environment) (voice : jsstring)
    (text : option jsstring) (i : nat) : outcome :=
  match text with
  | Some t =>
      match encodeURIComponent env t with
      | Some _ => upstream env voice t i
      | None => Rejected
      end
  | None => Rejected
  end.

(** [tts.getAudioChunks(textChunks, selectedVoice)] run to its end: the
    events, and whether the generator returned ([true]) or threw.  One
    element that is not a string goes the serial way; its log prints
    [text.slice(0, 30)], which an object has not, before [getAudio] is
    called.  The generator reads of [texts] the length only: the text of a
    segment reaches the run through [fetch]. *)
Definition generate (env : environment) (voice : jsstring)
    (textChunks : segments) : option (list event * bool) :=
  match textChunks with
  | Texts chunks =>
      match
        getAudioChunks chunks
          (fun i => getAudio env voice (chunks !! i) i) (sched env) 3
      with
      | Some trace => Some (trace, true)
      | None => None
      end
  | OneArray items =>
      if unprintable env (JArr num (firstn 30 items)) then Some ([], false)
      else
        let text := ToString env (JArr num items) in
        match
          getAudioChunks [default [] text]
            (fun i => getAudio env voice text i) (sched env) 3
        with
        | Some trace => Some (trace, true)
        | None => None
        end
  | OneObject => Some ([], false)
  end.

(** The route [/v1/audio/speech].  Whatever throws inside the [try] gives
    the reply of the [catch] block; in the streaming answer the response
    has left when the generator runs, and an error goes to the stream. *)
Definition speech (env : environment) (req : request)
    : option (response * list event) :=
  match json req with
  | None => caught
  | Some (JNull _) | Some (JUndefined _) => caught
  | Some body =>
      let voice := get num body (str "voice") in
      let input := get num body (str "input") in
      let stream := get num body (str "stream") in
      if negb (truthy num num_truthy input)
      then reply 400 json_headers (JsonError (str "Missing input"))
      else
        match too_long env input with
        | None => caught
        | Some true =>
            if length_log_throws env input then caught
            else
              reply 400 json_headers
                (JsonError
                   (str "Input exceeds maximum length of "
                    ++ Session.Number_toString MAX_INPUT_LENGTH
                    ++ str " characters"))
        | Some false =>
            let selectedVoice := select_voice env voice in
            if voice_log_throws env voice selectedVoice then caught
            else
              match split_input env input with
              | None => caught
              | Some textChunks =>
                  if length_log_throws env input then caught
                  else
                    match generate env selectedVoice textChunks with
                    | None => None
                    | Some (trace, finished) =>
                        let chunks := List.map snd (emitted trace) in
                        if truthy num num_truthy stream
                        then
                          Some ({| status := 200;
                                   headers :=
                                     CORS_HEADERS
                                     ∪ <["Transfer-Encoding"%string
                                           := str "chunked"]>
                                         {[ "Content-Type"%string
                                              := str "audio/mpeg" ]};
                                   body := AudioStream chunks finished |},
                                trace)
                        else if finished
                        then
                          let totalLength :=
                            fold_left (fun acc c => acc + length c) chunks 0
                          in
                          let result := merge chunks in
                          Some ({| status := 200;
                                   headers :=
                                     CORS_HEADERS
                                     ∪ <["Content-Length"%string :=
                                           Session.Number_toString
                                             (Z.of_nat totalLength)]>
                                         {[ "Content-Type"%string
                                              := str "audio/mpeg" ]};
                                   body := Audio result |}, trace)
                        else
                          Some ({| status := 500; headers := json_headers;
                                   body := JsonRuntimeError |}, trace)
                    end
              end
        end
  end.

(** [handler]: the response, and the events of the generator it runs.
    [None] stands for a generator that does not end. *)
Definition handler (env : environment) (req : request)
    : option (response * list event) :=
  if bool_decide (method req = str "OPTIONS")
  then reply 204 CORS_HEADERS Nothing
  else if bool_decide (pathname req = str "/ping")
  then reply 200 CORS_HEADERS (Text (str "pong"))
  else if negb (authorized env req)
  then reply 401 json_headers (JsonError (str "Unauthorized"))
  else if bool_decide (pathname req = str "/v1/models")
          && bool_decide (method req = str "GET")
  then
    reply 200 json_headers
      (JsonModels (SERVICE_START_TIME env) (name num <$> voices env))
  else if bool_decide (pathname req = str "/v1/audio/speech")
          && bool_decide (method req = str "POST")
  then speech env req
  else reply 404 CORS_HEADERS (Text (str "Not Found")).

End WithNumbers.

End Server.

(** * Properties *)

(** ** The 32-bit operators *)

Section JSFacts.
Import JS.
Local Open Scope Z_scope.

Lemma ToInt32_range x : int32 (ToInt32 x).
Proof.
  unfold int32, ToInt32, two31, two32.
  pose proof (Z.mod_pos_bound (x + 2147483648) 4294967296). lia.
Qed.

Lemma ToInt32_id x : int32 x -> ToInt32 x = x.
Proof.
  unfold int32, ToInt32, two31, two32. intros H.
  rewrite Z.mod_small; lia.
Qed.

Lemma ToInt32_idem x : ToInt32 (ToInt32 x) = ToInt32 x.
Proof. apply ToInt32_id, ToInt32_range. Qed.

(** ToInt32 moves its argument by a multiple of 2^32 ... *)
Lemma ToInt32_wrap x : exists k, ToInt32 x = x + k * two32.
Proof.
  unfold ToInt32, two31, two32.
  exists (- ((x + 2147483648) / 4294967296)).
  pose proof (Z.div_mod (x + 2147483648) 4294967296). lia.
Qed.

(** ... and does not see such a move. *)
Lemma ToInt32_add_mul x k : ToInt32 (x + k * two32) = ToInt32 x.
Proof.
  unfold ToInt32.
  replace (x + k * two32 + two31) with (x + two31 + k * two32) by lia.
  rewrite Z.mod_add; [reflexivity | unfold two32; lia].
Qed.

Lemma ToUint32_small x : 0 <= x < two32 -> ToUint32 x = x.
Proof. intros H. unfold ToUint32. apply Z.mod_small, H. Qed.

Lemma land_low_ToInt32 x n :
  0 <= n <= 32 -> Z.land (ToInt32 x) (Z.ones n) = Z.land x (Z.ones n).
Proof.
  intros Hn. rewrite !Z.land_ones by lia.
  destruct (ToInt32_wrap x) as [k ->].
  replace two32 with (2 ^ (32 - n) * 2 ^ n).
  - rewrite Z.mul_assoc. apply Z.mod_add.
    apply Z.pow_nonzero; lia.
  - rewrite <- Z.pow_add_r by lia.
    replace (32 - n + n) with 32 by lia. reflexivity.
Qed.

Lemma land_mask_bound a m n :
  0 <= n -> Z.land m (Z.ones n) = m -> 0 <= Z.land a m < 2 ^ n.
Proof.
  intros Hn Hm. rewrite <- Hm, Z.land_assoc, Z.land_ones by lia.
  apply Z.mod_pos_bound, Z.pow_pos_nonneg; lia.
Qed.

Lemma lxor_bound n a b :
  0 <= n -> 0 <= a < 2 ^ n -> 0 <= b < 2 ^ n -> 0 <= Z.lxor a b < 2 ^ n.
Proof.
  intros Hn Ha Hb.
  assert (H0 : 0 <= Z.lxor a b) by (apply Z.lxor_nonneg; lia).
  split; [exact H0 |].
  apply Z.bounded_iff_bits_nonneg; [lia | exact H0 |].
  intros l Hl. rewrite Z.lxor_spec.
  rewrite (proj1 (Z.bounded_iff_bits_nonneg n a Hn (proj1 Ha)) (proj2 Ha) l Hl).
  rewrite (proj1 (Z.bounded_iff_bits_nonneg n b Hn (proj1 Hb)) (proj2 Hb) l Hl).
  reflexivity.
Qed.

(** XOR with a small non-negative number keeps a signed 32-bit value in
    range: the sign bit and everything above it are untouched. *)
Lemma lxor_int32 a k : int32 a -> 0 <= k < two31 -> int32 (Z.lxor a k).
Proof.
  unfold int32, two31. intros Ha Hk.
  change 2147483648 with (2 ^ 31) in *.
  destruct (Z_lt_le_dec a 0) as [Hneg | Hpos].
  - assert (E : Z.lxor a k = Z.lnot (Z.lxor (Z.lnot a) k)).
    { rewrite Z.lnot_lxor_l, Z.lnot_involutive. reflexivity. }
    rewrite E.
    pose proof (lxor_bound 31 (Z.lnot a) k) as B.
    unfold Z.lnot in *. rewrite <- !Z.sub_1_r in *. lia.
  - pose proof (lxor_bound 31 a k). lia.
Qed.

End JSFacts.

(** ** The hash *)

Section HashFacts.
Import JS Hash.
Local Open Scope Z_scope.

Lemma truncate_ToInt32 x : truncateToSigned32 x = ToInt32 x.
Proof.
  unfold ToInt32, truncateToSigned32, two31, two32.
  change (2 ^ 32) with 4294967296. change (2 ^ 31) with 2147483648.
  destruct (Z.ltb_spec (x mod 4294967296) 2147483648); cbv iota;
    Z.to_euclidean_division_equations; lia.
Qed.

(** [(at << 6) & HASH_MASK_1] only looks at the low 28 bits, which the
    32-bit shift leaves as the unbounded shift has them. *)
Lemma shl6_mask at_ :
  JS.and (shl at_ 6) HASH_MASK_1 = Z.land (Z.shiftl at_ 6) MASK1.
Proof.
  unfold JS.and, shl.
  change (ToUint32 6 mod 32) with 6.
  change (ToInt32 HASH_MASK_1) with (Z.ones 28). change MASK1 with (Z.ones 28).
  rewrite ToInt32_idem, land_low_ToInt32 by lia.
  rewrite !Z.shiftl_mul_pow2 by lia.
  destruct (ToInt32_wrap at_) as [k ->].
  replace ((at_ + k * two32) * 2 ^ 6)
    with (at_ * 2 ^ 6 + (k * 2 ^ 10) * 2 ^ 28) by (unfold two32; lia).
  rewrite !Z.land_ones by lia.
  rewrite Z.mod_add by lia.
  apply ToInt32_id. unfold int32, two31.
  pose proof (Z.mod_pos_bound (at_ * 2 ^ 6) (2 ^ 28)). lia.
Qed.

Lemma shl14_wrap st : exists k, shl st 14 = Z.shiftl st 14 + k * two32.
Proof.
  unfold shl. change (ToUint32 14 mod 32) with 14.
  destruct (ToInt32_wrap st) as [k1 E1].
  destruct (ToInt32_wrap (Z.shiftl (ToInt32 st) 14)) as [k2 E2].
  exists (k1 * 2 ^ 14 + k2). rewrite E2, E1.
  rewrite !Z.shiftl_mul_pow2 by lia. lia.
Qed.

Lemma or0 x : JS.or x 0 = ToInt32 x.
Proof.
  unfold JS.or. change (ToInt32 0) with 0.
  rewrite Z.lor_0_r. apply ToInt32_idem.
Qed.

Lemma fold_mask a :
  int32 a ->
  JS.and a HASH_MASK_2 = Z.land a MASK2 /\ 0 <= Z.land a MASK2 < 2 ^ 28.
Proof.
  intros Ha.
  assert (B : 0 <= Z.land a MASK2 < 2 ^ 28)
    by (apply land_mask_bound; [lia | reflexivity]).
  split; [| exact B].
  unfold JS.and. change (ToInt32 HASH_MASK_2) with MASK2.
  rewrite (ToInt32_id a Ha). apply ToInt32_id.
  unfold int32, two31. lia.
Qed.

Lemma ushr21 it : 0 <= it < 2 ^ 28 ->
  ushr it 21 = Z.shiftr it 21 /\ 0 <= Z.shiftr it 21 < 2 ^ 7.
Proof.
  intros H. unfold ushr. change (ToUint32 21 mod 32) with 21.
  rewrite ToUint32_small by (unfold two32; lia).
  split; [reflexivity |].
  rewrite Z.shiftr_div_pow2 by lia.
  split; [apply Z.div_pos; lia |].
  apply Z.div_lt_upper_bound; lia.
Qed.

(** One turn of the loop is one step of the reference computation. *)
Lemma body_ref_step at_ st : _e_body at_ st = ref_step at_ st.
Proof.
  unfold _e_body, ref_step.
  rewrite or0, shl6_mask, truncate_ToInt32.
  destruct (shl14_wrap st) as [k ->].
  rewrite Z.add_assoc, ToInt32_add_mul.
  set (a1 := ToInt32 _).
  assert (Ha1 : int32 a1) by apply ToInt32_range.
  destruct (fold_mask a1 Ha1) as [-> Hit].
  destruct (Z.eqb_spec (Z.land a1 MASK2) 0) as [E | NE]; simpl; [reflexivity |].
  destruct (ushr21 _ Hit) as [-> Hk].
  unfold JS.xor.
  assert (Hk' : int32 (Z.shiftr (Z.land a1 MASK2) 21))
    by (unfold int32, two31; lia).
  rewrite (ToInt32_id a1 Ha1), (ToInt32_id _ Hk').
  apply ToInt32_id, lxor_int32; [exact Ha1 | unfold two31; lia].
Qed.

Lemma body_int32 at_ st : int32 (_e_body at_ st).
Proof.
  unfold _e_body.
  destruct (negb _); [unfold JS.xor | unfold JS.or]; apply ToInt32_range.
Qed.

Lemma firstn_snoc_nth (s : jsstring) i :
  (i < List.length s)%nat -> firstn (S i) s = firstn i s ++ [charCodeAt s i].
Proof.
  unfold charCodeAt. revert i.
  induction s as [| c s IH]; intros i Hi; simpl in Hi; [lia |].
  destruct i as [| i]; [reflexivity |].
  change (firstn (S (S i)) (c :: s)) with (c :: firstn (S i) s).
  rewrite IH by lia. reflexivity.
Qed.

Lemma fold_left_snoc_rev {A B} (f : A -> B -> A) l x a :
  fold_left f (rev (l ++ [x])) a = fold_left f (rev l) (f a x).
Proof. rewrite rev_app_distr. reflexivity. Qed.

Lemma for_down_S {A} n (body : nat -> A -> A) a :
  for_down (S n) body a = for_down n body (body n a).
Proof. reflexivity. Qed.

(** The descending index loop is a left fold over the reversed prefix. *)
Lemma for_down_fold (f : Z -> Z -> Z) nt n at_ :
  (n <= List.length nt)%nat ->
  for_down n (fun i a => f a (charCodeAt nt i)) at_
  = fold_left f (rev (firstn n nt)) at_.
Proof.
  revert at_. induction n as [| i IH]; intros at_ Hn; [reflexivity |].
  rewrite for_down_S, IH by lia.
  rewrite firstn_snoc_nth by lia.
  symmetry. apply fold_left_snoc_rev.
Qed.

Lemma for_down_inv {A} (P : A -> Prop) (body : nat -> A -> A) n a :
  P a -> (forall i x, P x -> P (body i x)) -> P (for_down n body a).
Proof.
  intros Ha Hstep. revert a Ha.
  induction n as [| i IH]; intros a Ha; [exact Ha |].
  rewrite for_down_S. apply IH, Hstep, Ha.
Qed.

Lemma fold_left_ext_eq {A B} (f g : A -> B -> A) l a :
  (forall x y, f x y = g x y) -> fold_left f l a = fold_left g l a.
Proof.
  intros E. revert a. induction l as [| y l IH]; intros a; [reflexivity |].
  cbn [fold_left]. rewrite E. apply IH.
Qed.

(** C3. [_e] is a function of its argument alone and computes the reference
    hash: accumulator 0, characters scanned from the last to the first, each
    step [a = truncateToSigned32(((a << 6) & 0x0FFFFFFF) + c + (c << 14))]
    followed by [a = a XOR (folded >>> 21)] when [folded = a & 0x0FE00000]
    is not zero, shifts and XOR taken on unbounded integers; equal inputs
    give equal results, and the empty string gives 0. *)
Theorem e_refines_reference :
  (forall s : jsstring, _e s = hash_ref s)
  /\ (forall s1 s2 : jsstring, s1 = s2 -> _e s1 = _e s2)
  /\ _e [] = 0.
Proof.
  split; [| split].
  - intros s. unfold _e, hash_ref.
    rewrite (for_down_fold _e_body) by lia.
    rewrite firstn_all. apply fold_left_ext_eq, body_ref_step.
  - intros s1 s2 E. rewrite E. reflexivity.
  - reflexivity.
Qed.

(** C9. For every string the hash lies in the signed 32-bit range
    [-2^31, 2^31 - 1]; so does the accumulator after every turn of the
    loop, XOR fold included. *)
Theorem e_signed_32bit :
  (forall s : jsstring, - 2 ^ 31 <= _e s <= 2 ^ 31 - 1)
  /\ (forall at_ st : Z, - 2 ^ 31 <= _e_body at_ st <= 2 ^ 31 - 1).
Proof.
  assert (R : forall x, int32 x -> - 2 ^ 31 <= x <= 2 ^ 31 - 1)
    by (unfold int32, two31; intros x Hx; lia).
  split.
  - intros s. apply R. unfold _e.
    apply (for_down_inv int32).
    + unfold int32, two31. lia.
    + intros i x _. apply body_int32.
  - intros at_ st. apply R, body_int32.
Qed.

(** *** Runs *)

Example e_one_char : _e (str "a") = 97 + 97 * 2 ^ 14.
Proof. reflexivity. Qed.

Example e_domain : _e (str "https://bot.n.cn") = 124812755.
Proof. vm_compute. reflexivity. Qed.

Example e_top_code_units : _e [65535; 65535; 65535; 65535; 65535; 65535] = 1218611514.
Proof. vm_compute. reflexivity. Qed.

End HashFacts.

(** ** The segmenter *)

Section SegmenterFacts.
Import Segmenter.
Local Open Scope Z_scope.

(** *** [split] keeps every character *)

Lemma split_capture_concat cls s cur :
  concat (split_capture cls s cur) = cur ++ s.
Proof.
  revert cur. induction s as [| c s IH]; intros cur; simpl.
  - reflexivity.
  - destruct (cls c); simpl.
    + rewrite IH. simpl. reflexivity.
    + rewrite IH, <- app_assoc. reflexivity.
Qed.

(** Every part is free of class characters, or is one class character. *)
Lemma split_capture_parts cls s cur p :
  Forall (fun c => cls c = false) cur ->
  In p (split_capture cls s cur) ->
  Forall (fun c => cls c = false) p \/ exists c, p = [c] /\ cls c = true.
Proof.
  revert cur. induction s as [| c s IH]; intros cur Hcur Hin; simpl in Hin.
  - destruct Hin as [<- | []]. left. exact Hcur.
  - destruct (cls c) eqn:Ec.
    + destruct Hin as [<- | [<- | Hin]].
      * left. exact Hcur.
      * right. exists c. split; [reflexivity | exact Ec].
      * apply (IH []); [constructor | exact Hin].
    + apply (IH (cur ++ [c])); [| exact Hin].
      apply Forall_app. split; [exact Hcur |]. repeat constructor. exact Ec.
Qed.

(** A boundary between two parts has a class character on one side. *)
Lemma split_capture_boundary cls s cur f1 f2 :
  split_capture cls s cur = f1 ++ f2 ->
  f1 = [] \/ concat f2 = []
  \/ (exists u c, concat f1 = u ++ [c] /\ cls c = true)
  \/ (exists c v, concat f2 = c :: v /\ cls c = true).
Proof.
  revert cur f1 f2. induction s as [| c s IH]; intros cur f1 f2 E; simpl in E.
  - destruct f1 as [| x f1]; [left; reflexivity |].
    right; left. injection E as _ E.
    destruct f1; [| discriminate]. simpl in E. subst f2. reflexivity.
  - destruct (cls c) eqn:Ec.
    + destruct f1 as [| x f1]; [left; reflexivity |].
      injection E as <- E.
      destruct f1 as [| y f1].
      * simpl in E. subst f2. right; right; right.
        exists c, (concat (split_capture cls s [])). split; [reflexivity | exact Ec].
      * injection E as <- E. right.
        destruct (IH [] f1 f2 E) as [-> | [H | [(u & d & Hu & Hd) | H]]].
        -- right; left. exists cur, c. split; [| exact Ec].
           simpl. reflexivity.
        -- left. exact H.
        -- right; left. exists (cur ++ [c] ++ u), d. split; [| exact Hd].
           simpl. rewrite Hu, <- !app_assoc. reflexivity.
        -- right; right. exact H.
    + apply (IH (cur ++ [c])). exact E.
Qed.

(** *** The first tier *)

Lemma sentences_of_split_concat cls s cur :
  concat (sentences_of (split_capture cls s cur)) = cur ++ s.
Proof.
  revert cur. induction s as [| c s IH]; intros cur.
  - simpl. destruct cur; simpl; rewrite ?app_nil_r; reflexivity.
  - simpl split_capture. destruct (cls c).
    + cbn [sentences_of truthy orb]. rewrite orb_true_r.
      rewrite concat_app, IH. simpl. rewrite app_nil_r, <- app_assoc.
      reflexivity.
    + rewrite IH, <- app_assoc. reflexivity.
Qed.

Lemma sentences_concat text : concat (sentences text) = text.
Proof. apply sentences_of_split_concat. Qed.

(** Shape of the sentences: none is empty, a class character can only be
    the last character, and every sentence but the last ends with one. *)
Lemma sentences_of_split_shape cls s cur :
  Forall (fun c => cls c = false) cur ->
  forall ss1 x ss2,
    sentences_of (split_capture cls s cur) = ss1 ++ x :: ss2 ->
    x <> []
    /\ (forall pre d post, x = pre ++ d :: post -> cls d = true -> post = [])
    /\ (ss2 <> [] -> exists u d, x = u ++ [d] /\ cls d = true).
Proof.
  revert cur. induction s as [| c s IH]; intros cur Hcur ss1 x ss2 E.
  - simpl in E. destruct cur as [| a cur]; simpl in E.
    + destruct ss1; discriminate.
    + destruct ss1 as [| y ss1]; [| destruct ss1; discriminate].
      injection E as <- <-. rewrite app_nil_r.
      split; [discriminate |]. split; [| intros H; contradiction].
      intros pre d post Ex Hd. exfalso.
      rewrite Ex in Hcur. apply Forall_app in Hcur as [_ Hcur].
      inversion Hcur; congruence.
  - simpl split_capture in E. destruct (cls c) eqn:Ec.
    + cbn [sentences_of truthy orb] in E. rewrite orb_true_r in E.
      simpl in E. destruct ss1 as [| y ss1].
      * injection E as <- E. split; [destruct cur; discriminate |].
        split.
        -- intros pre d post Ex Hd.
           destruct post as [| e post] using rev_ind; [reflexivity |].
           exfalso. clear IHpost.
           change (pre ++ d :: post ++ [e]) with (pre ++ (d :: post) ++ [e]) in Ex.
           rewrite app_assoc in Ex.
           apply app_inj_tail in Ex as [Ex _].
           rewrite Ex in Hcur. apply Forall_app in Hcur as [_ Hcur].
           inversion Hcur; congruence.
        -- intros _. exists cur, c. split; [reflexivity | exact Ec].
      * injection E as _ E. apply (IH [] ltac:(constructor) ss1 x ss2 E).
    + apply (IH (cur ++ [c]) ltac:(apply Forall_app; split;
        [exact Hcur | repeat constructor; exact Ec]) ss1 x ss2 E).
Qed.

(** *** The second tier *)

Lemma push_current_app r c : push_current r c = r ++ push_current [] c.
Proof. unfold push_current. destruct (truthy c); simpl; rewrite ?app_nil_r; reflexivity. Qed.

Lemma push_current_concat r c : concat (push_current r c) = concat r ++ c.
Proof.
  unfold push_current. destruct c as [| a c]; simpl.
  - rewrite app_nil_r. reflexivity.
  - rewrite concat_app. simpl. rewrite app_nil_r. reflexivity.
Qed.

Lemma in_push_current x r c :
  In x (push_current r c) <-> In x r \/ (x = c /\ c <> []).
Proof.
  unfold push_current. destruct c as [| a c]; simpl.
  - split; [intros H; left; exact H | intros [H | [_ H]]; [exact H | congruence]].
  - rewrite in_app_iff. simpl. split.
    + intros [H | [<- | []]]; [left; exact H | right; split; [reflexivity | discriminate]].
    + intros [H | [-> _]]; [left; exact H | right; left; reflexivity].
Qed.

(** A fold with an invariant that sees the part of the list already read. *)
Lemma fold_left_prefix_inv {A B} (f : A -> B -> A)
    (I : list B -> A -> Prop) (l : list B) (a : A) :
  I [] a ->
  (forall done x rest st,
      l = done ++ x :: rest -> I done st -> I (done ++ [x]) (f st x)) ->
  I l (fold_left f l a).
Proof.
  intros H0 Hstep.
  assert (G : forall rest done st,
             l = done ++ rest -> I done st -> I l (fold_left f rest st)).
  { induction rest as [| x rest IH]; intros done st E Hd.
    - rewrite app_nil_r in E. subst done. exact Hd.
    - simpl. apply (IH (done ++ [x])).
      + rewrite <- app_assoc. exact E.
      + apply (Hstep done x rest st E Hd). }
  apply (G l [] a); [reflexivity | exact H0].
Qed.

Lemma pack_step_app m r c p :
  pack_step m (r, c) p
  = (r ++ fst (pack_step m ([], c) p), snd (pack_step m ([], c) p)).
Proof.
  unfold pack_step. destruct (_ <=? _); simpl.
  - rewrite app_nil_r. reflexivity.
  - rewrite (push_current_app r c). reflexivity.
Qed.

Lemma pack_fold_app m parts r c :
  fold_left (pack_step m) parts (r, c)
  = (r ++ fst (fold_left (pack_step m) parts ([], c)),
     snd (fold_left (pack_step m) parts ([], c))).
Proof.
  revert r c. induction parts as [| p parts IH]; intros r c.
  - simpl. rewrite app_nil_r. reflexivity.
  - cbn [fold_left]. rewrite pack_step_app.
    destruct (pack_step m ([], c) p) as [x c'] eqn:E. cbn [fst snd].
    rewrite IH. rewrite (IH x c'). cbn [fst snd].
    rewrite app_assoc. reflexivity.
Qed.

Lemma tier2_unfold m r s :
  tier2 m r s
  = if Z.of_nat (List.length s) <=? m then r ++ [s]
    else push_current
           (fst (fold_left (pack_step m) (split is_comma s) (r, [])))
           (snd (fold_left (pack_step m) (split is_comma s) (r, []))).
Proof.
  unfold tier2. destruct (_ <=? _); [reflexivity |].
  destruct (fold_left _ _ _). reflexivity.
Qed.

(** The segments one sentence contributes. *)
Lemma tier2_app m r s : tier2 m r s = r ++ tier2 m [] s.
Proof.
  rewrite !tier2_unfold. destruct (_ <=? _); [reflexivity |].
  rewrite pack_fold_app. cbn [fst snd].
  rewrite push_current_app, (push_current_app (fst _)), app_assoc.
  reflexivity.
Qed.

Lemma tier2_fold m ss r :
  fold_left (tier2 m) ss r = r ++ flat_map (tier2 m []) ss.
Proof.
  revert r. induction ss as [| s ss IH]; intros r; simpl.
  - rewrite app_nil_r. reflexivity.
  - rewrite IH, (tier2_app m r s), <- app_assoc. reflexivity.
Qed.

Lemma unfiltered_flat_map text m :
  unfiltered text m = flat_map (tier2 m []) (sentences text).
Proof. unfold unfiltered. rewrite tier2_fold. reflexivity. Qed.

Lemma tier2_short m s :
  Z.of_nat (List.length s) <= m -> tier2 m [] s = [s].
Proof.
  intros H. rewrite tier2_unfold.
  destruct (Z.leb_spec (Z.of_nat (List.length s)) m); [reflexivity | lia].
Qed.

Lemma tier2_long m s :
  m < Z.of_nat (List.length s) ->
  tier2 m [] s
  = push_current (fst (fold_left (pack_step m) (split is_comma s) ([], [])))
                 (snd (fold_left (pack_step m) (split is_comma s) ([], []))).
Proof.
  intros H. rewrite tier2_unfold.
  destruct (Z.leb_spec (Z.of_nat (List.length s)) m); [lia | reflexivity].
Qed.

Lemma snoc_eq_app {A} (r : list A) c a b :
  r ++ [c] = a ++ b ->
  (b = [] /\ a = r ++ [c]) \/ (exists b', b = b' ++ [c] /\ r = a ++ b').
Proof.
  intros E. destruct b as [| y b _] using rev_ind.
  - left. rewrite app_nil_r in E. split; [reflexivity | symmetry; exact E].
  - right. rewrite app_assoc in E. apply app_inj_tail in E as [E1 E2].
    exists b. subst. split; reflexivity.
Qed.

(** Every prefix of the result after [push_current] ends where a prefix of
    [r] ends, or where [current] ends. *)
Lemma push_current_prefix (Q : jsstring -> Prop) r c :
  (forall a b, r = a ++ b -> Q (concat a)) ->
  Q (concat r ++ c) ->
  forall a b, push_current r c = a ++ b -> Q (concat a).
Proof.
  intros Hr Hc a b E. unfold push_current in E.
  destruct (truthy c); [| exact (Hr a b E)].
  destruct (snoc_eq_app r c a b E) as [[-> ->] | (b' & -> & ->)].
  - rewrite concat_app. simpl. rewrite app_nil_r. exact Hc.
  - apply (Hr a b'). reflexivity.
Qed.

(** The packing loop keeps every character, in order, and cuts only where
    one comma part ends and the next begins. *)
Lemma pack_fold_cuts m parts :
  let st := fold_left (pack_step m) parts ([], []) in
  concat (fst st) ++ snd st = concat parts
  /\ forall a b, fst st = a ++ b ->
       exists f1 f2, parts = f1 ++ f2 /\ concat f1 = concat a.
Proof.
  apply (fold_left_prefix_inv (pack_step m)
    (fun done st =>
       concat (fst st) ++ snd st = concat done
       /\ forall a b, fst st = a ++ b ->
            exists f1 f2, parts = f1 ++ f2 /\ concat f1 = concat a)).
  - split; [reflexivity |]. intros a b E. simpl in E.
    symmetry in E. apply app_eq_nil in E as [-> _].
    exists [], parts. split; reflexivity.
  - intros done x rest [r cur] Eparts [Hc Hp]. cbn [fst snd] in Hc, Hp.
    unfold pack_step. destruct (_ <=? _); cbn [fst snd].
    + split; [| exact Hp].
      rewrite concat_app, <- Hc. simpl. rewrite app_nil_r, app_assoc.
      reflexivity.
    + split.
      * rewrite push_current_concat, concat_app, <- Hc. simpl.
        rewrite app_nil_r. reflexivity.
      * apply (push_current_prefix
                 (fun u => exists f1 f2, parts = f1 ++ f2 /\ concat f1 = u));
          [exact Hp |].
        exists done, (x :: rest). split; [exact Eparts | symmetry; exact Hc].
Qed.

Lemma tier2_concat m s : concat (tier2 m [] s) = s.
Proof.
  destruct (Z_le_gt_dec (Z.of_nat (List.length s)) m) as [H | H].
  - rewrite tier2_short by exact H. simpl. apply app_nil_r.
  - rewrite tier2_long by lia. rewrite push_current_concat.
    destruct (pack_fold_cuts m (split is_comma s)) as [Hc _].
    rewrite Hc. apply split_capture_concat.
Qed.

(** Inside a sentence, a cut between two segments has a comma on one
    side. *)
Lemma tier2_cuts m s a b :
  tier2 m [] s = a ++ b ->
  concat a = [] \/ concat b = []
  \/ (exists u c, concat a = u ++ [c] /\ is_comma c = true)
  \/ (exists c v, concat b = c :: v /\ is_comma c = true).
Proof.
  intros E.
  destruct (Z_le_gt_dec (Z.of_nat (List.length s)) m) as [H | H].
  - rewrite tier2_short in E by exact H.
    destruct a as [| x a]; [left; reflexivity |].
    right; left. injection E as _ E. destruct a; [| discriminate].
    simpl in E. subst b. reflexivity.
  - pose proof (tier2_concat m s) as Hcat.
    rewrite E, concat_app in Hcat.
    rewrite tier2_long in E by lia.
    destruct (pack_fold_cuts m (split is_comma s)) as [Hc Hp].
    assert (Hq : exists f1 f2,
               split is_comma s = f1 ++ f2 /\ concat f1 = concat a).
    { revert a b E Hcat. intros a b E _. revert a b E.
      apply (push_current_prefix
               (fun u => exists f1 f2,
                           split is_comma s = f1 ++ f2 /\ concat f1 = u));
        [exact Hp |].
      exists (split is_comma s), []. rewrite app_nil_r.
      split; [reflexivity | symmetry; exact Hc]. }
    destruct Hq as (f1 & f2 & Ef & Ea).
    assert (Eb : concat f2 = concat b).
    { pose proof (split_capture_concat is_comma s []) as Hs.
      fold (split is_comma s) in Hs. rewrite Ef, concat_app, Ea in Hs.
      simpl in Hs. rewrite <- Hcat in Hs.
      apply app_inv_head in Hs. exact Hs. }
    destruct (split_capture_boundary is_comma s [] f1 f2 Ef)
      as [-> | [H0 | [H0 | H0]]].
    + left. rewrite <- Ea. reflexivity.
    + right; left. rewrite <- Eb. exact H0.
    + right; right; left. rewrite <- Ea. exact H0.
    + right; right; right. rewrite <- Eb. exact H0.
Qed.

(** *** The whole text *)

Lemma flat_map_split {A B} (f : A -> list B) ss l1 l2 :
  flat_map f ss = l1 ++ l2 ->
  l2 = []
  \/ exists ss1 s ss2 a b,
       ss = ss1 ++ s :: ss2 /\ f s = a ++ b
       /\ l1 = flat_map f ss1 ++ a /\ l2 = b ++ flat_map f ss2.
Proof.
  revert l1. induction ss as [| s ss IH]; intros l1 E; simpl in E.
  - left. symmetry in E. apply app_eq_nil in E as [_ E]. exact E.
  - apply app_eq_app in E as [l [[E1 E2] | [E1 E2]]].
    + right. exists [], s, ss, l1, l. simpl. repeat split; assumption.
    + destruct (IH l E2) as [-> | (ss1 & s' & ss2 & a & b & Es & Ef & El & E2')].
      * left. reflexivity.
      * right. exists (s :: ss1), s', ss2, a, b. subst. simpl.
        repeat split; try assumption. rewrite app_assoc. reflexivity.
Qed.

Lemma concat_flat_map_tier2 m ss :
  concat (flat_map (tier2 m []) ss) = concat ss.
Proof.
  induction ss as [| s ss IH]; [reflexivity |].
  simpl. rewrite concat_app, tier2_concat, IH. reflexivity.
Qed.

Lemma unfiltered_concat text m : concat (unfiltered text m) = text.
Proof.
  rewrite unfiltered_flat_map, concat_flat_map_tier2. apply sentences_concat.
Qed.

Lemma sentences_shape text ss1 x ss2 :
  sentences text = ss1 ++ x :: ss2 ->
  x <> [] /\ delimiter_last x
  /\ (ss2 <> [] ->
      exists u d, x = u ++ [d] /\ is_sentence_delimiter d = true).
Proof.
  apply (sentences_of_split_shape is_sentence_delimiter text []). constructor.
Qed.

Lemma comma_not_delimiter c :
  is_comma c = true -> is_sentence_delimiter c = false.
Proof.
  unfold is_comma. intros H.
  apply orb_true_iff in H as [H | H]; apply Z.eqb_eq in H; subst c;
    reflexivity.
Qed.

(** A cut of the unfiltered result that leaves a sentence delimiter at the
    head of what follows either has nothing before the delimiter in its
    sentence, or falls after a comma of a sentence that is too long. *)
Lemma unfiltered_delimiters text m l1 l2 :
  unfiltered text m = l1 ++ l2 ->
  delimiter_attached (concat l1) (concat l2)
  \/ comma_before_delimiter text m (concat l1) (concat l2).
Proof.
  rewrite unfiltered_flat_map. intros E.
  destruct (concat l2) as [| d v'] eqn:Ev.
  { left. intros d v' Hv. discriminate Hv. }
  destruct (is_sentence_delimiter d) eqn:Hd.
  2: { left. intros d0 v0 Hv Hd0. injection Hv as <- <-. congruence. }
  destruct (flat_map_split _ _ _ _ E)
    as [-> | (ss1 & s & ss2 & a & b & Es & Ef & -> & ->)].
  { discriminate Ev. }
  rewrite concat_app, concat_flat_map_tier2 in Ev.
  rewrite concat_app, concat_flat_map_tier2.
  destruct (sentences_shape text ss1 s ss2 Es) as (_ & Hlast & Hend).
  pose proof (tier2_concat m s) as Hcat. rewrite Ef, concat_app in Hcat.
  destruct (concat a) as [| x a'] eqn:Ea.
  - (* the cut is where the sentence begins *)
    left. intros _ _ _ _. rewrite app_nil_r.
    destruct ss1 as [| t ss1 _] using rev_ind; [left; reflexivity |].
    right. rewrite <- app_assoc in Es.
    destruct (sentences_shape text ss1 t ([s] ++ ss2) Es) as (_ & _ & Ht).
    destruct Ht as (u & c & -> & Hc); [discriminate |].
    exists (concat ss1 ++ u), c. split; [| exact Hc].
    rewrite concat_app. simpl. rewrite app_nil_r, app_assoc. reflexivity.
  - destruct (concat b) as [| y b'] eqn:Eb.
    + (* the cut is where the sentence ends *)
      left. intros _ _ _ _. right.
      destruct ss2 as [| t ss2]; [discriminate Ev |].
      destruct Hend as (u & c & Hs & Hc); [discriminate |].
      rewrite app_nil_r in Hcat. rewrite Hcat, Hs.
      exists (concat ss1 ++ u), c. split; [| exact Hc].
      rewrite app_assoc. reflexivity.
    + (* the cut is inside the sentence *)
      injection Ev as -> Ev.
      assert (Hb' : b' = []).
      { apply (Hlast (x :: a') d b'); [symmetry; exact Hcat | exact Hd]. }
      subst b'.
      destruct (Z_le_gt_dec (Z.of_nat (List.length s)) m) as [Hs | Hs].
      { rewrite tier2_short in Ef by exact Hs.
        destruct a as [| z a]; [discriminate Ea |].
        injection Ef as _ Ef. destruct a; [| discriminate Ef].
        simpl in Ef. subst b. discriminate Eb. }
      right.
      destruct (tier2_cuts m s a b Ef)
        as [Ha | [Hb | [(w & c & Hw & Hc) | (c & v & Hv & Hc)]]].
      * rewrite Ea in Ha. discriminate Ha.
      * rewrite Eb in Hb. discriminate Hb.
      * rewrite Ea in Hw. exists (concat ss1), w, c, d, v'.
        split; [rewrite Hw; reflexivity |].
        split; [reflexivity |]. split; [exact Hc |]. split; [exact Hd |].
        assert (E' : w ++ [c; d] = s).
        { rewrite <- Hcat, Hw, <- app_assoc. reflexivity. }
        rewrite E'. split; [| lia].
        rewrite Es. apply in_elt.
      * rewrite Eb in Hv. injection Hv as -> _.
        apply comma_not_delimiter in Hc. congruence.
Qed.

(** A sentence delimiter ends the segment it is in. *)
Lemma unfiltered_delimiter_last text m s :
  In s (unfiltered text m) -> delimiter_last s.
Proof.
  rewrite unfiltered_flat_map. intros Hin.
  apply in_flat_map in Hin as (x & Hx & Hs).
  apply in_split in Hx as (ss1 & ss2 & Hx).
  destruct (sentences_shape text ss1 x ss2 Hx) as (_ & Hlast & _).
  apply in_split in Hs as (a & b & Hs).
  pose proof (tier2_concat m x) as Hcat.
  rewrite Hs, concat_app in Hcat. simpl in Hcat.
  intros pre d post -> Hd.
  assert (E : x = (concat a ++ pre) ++ d :: (post ++ concat b)).
  { rewrite <- Hcat, <- !app_assoc. reflexivity. }
  pose proof (Hlast _ _ _ E Hd) as E'.
  apply app_eq_nil in E' as [E' _]. exact E'.
Qed.

Lemma filter_drops_blank l :
  drops_blank l
    (List.filter (fun s => 0 <? Z.of_nat (List.length (trim s))) l).
Proof.
  induction l as [| s l IH]; simpl; [constructor |].
  destruct (Z.ltb_spec 0 (Z.of_nat (List.length (trim s)))) as [H | H].
  - apply drops_keep, IH.
  - apply drops_drop; [| exact IH].
    unfold blank. destruct (trim s); [reflexivity | simpl in H; lia].
Qed.

Lemma drops_blank_cons_inv pieces x kept :
  drops_blank pieces (x :: kept) ->
  exists bs rest,
    pieces = bs ++ x :: rest /\ drops_blank rest kept.
Proof.
  induction pieces as [| p pieces IH]; intros H; inversion H; subst.
  - exists [], pieces. split; [reflexivity | assumption].
  - match goal with Hd : drops_blank pieces (x :: kept) |- _ =>
      destruct (IH Hd) as (bs & rest & -> & Hr)
    end.
    exists (p :: bs), rest. split; [reflexivity | exact Hr].
Qed.

(** C4, as stated, fails where a comma comes right before the delimiter of
    a sentence that is too long: [splitText("ab,.", 3)] is [["ab,"; "."]],
    and the full stop is cut from the content it ends. *)
Lemma splitText_detached_counterexample :
  ~ (forall (text : jsstring) (maxLen : Z),
        exists pieces : list jsstring,
          concat pieces = text
          /\ drops_blank pieces (splitText text maxLen)
          /\ (forall l1 l2, pieces = l1 ++ l2 ->
                delimiter_attached (concat l1) (concat l2))).
Proof.
  intros H. destruct (H (str "ab,.") 3) as (pieces & Hc & Hd & Ha).
  change (splitText (str "ab,.") 3) with [str "ab,"; str "."] in Hd.
  apply drops_blank_cons_inv in Hd as (bs1 & rest1 & -> & Hd).
  apply drops_blank_cons_inv in Hd as (bs2 & rest2 & -> & _).
  rewrite concat_app in Hc. cbn [concat] in Hc. rewrite concat_app in Hc.
  cbn [concat] in Hc.
  assert (Hlen := f_equal (@List.length Z) Hc).
  rewrite !length_app in Hlen. cbn in Hlen.
  assert (E1 : concat bs1 = []) by (apply length_zero_iff_nil; lia).
  assert (E2 : concat bs2 = []) by (apply length_zero_iff_nil; lia).
  assert (E3 : concat rest2 = []) by (apply length_zero_iff_nil; lia).
  specialize (Ha (bs1 ++ [str "ab,"]) (bs2 ++ str "." :: rest2)).
  rewrite <- app_assoc in Ha. specialize (Ha eq_refl).
  rewrite !concat_app in Ha. cbn [concat] in Ha.
  rewrite E1, E2, E3 in Ha.
  destruct (Ha 46 [] eq_refl eq_refl) as [E | (u & c & E & Hdel)].
  - discriminate E.
  - change (str "ab," ++ []) with ([97; 98] ++ [44]) in E. cbn [app] in E.
    change [97; 98; 44] with ([97; 98] ++ [44]) in E.
    apply app_inj_tail in E as [_ <-]. discriminate Hdel.
Qed.

(** C4, amended. The text is the concatenation of pieces, in order, such
    that the segments returned are these pieces with only blank ones (empty
    once trimmed) left out.  A cut between two pieces leaves every sentence
    delimiter with the content it ends, with one exception: in a sentence
    longer than [maxLen] whose delimiter comes right after a comma, the cut
    after the comma puts the delimiter at the head of the next piece.  When
    the text is split, a sentence delimiter is always the last character of
    its piece. *)
Theorem splitText_reconstructs (text : jsstring) (maxLen : Z) :
  exists pieces : list jsstring,
    concat pieces = text
    /\ drops_blank pieces (splitText text maxLen)
    /\ (forall l1 l2, pieces = l1 ++ l2 ->
          delimiter_attached (concat l1) (concat l2)
          \/ comma_before_delimiter text maxLen (concat l1) (concat l2))
    /\ (splitText text maxLen = [text] \/ Forall delimiter_last pieces).
Proof.
  unfold splitText.
  destruct (Z.leb_spec (Z.of_nat (List.length text)) maxLen) as [H | H].
  - exists [text]. split; [simpl; apply app_nil_r |].
    split; [repeat constructor |].
    split; [| left; reflexivity].
    intros l1 l2 E. left. intros d v' Hv _.
    destruct l1 as [| x l1]; [left; reflexivity |].
    injection E as _ E. destruct l1; [| discriminate].
    simpl in E. subst l2. discriminate Hv.
  - exists (unfiltered text maxLen).
    split; [apply unfiltered_concat |].
    split; [apply filter_drops_blank |].
    split; [apply unfiltered_delimiters |].
    right. apply List.Forall_forall. apply unfiltered_delimiter_last.
Qed.

(** *** Short texts *)

(** C5. A text no longer than [maxLen] comes back alone and unchanged. *)
Theorem splitText_short (text : jsstring) (maxLen : Z) :
  Z.of_nat (List.length text) <= maxLen -> splitText text maxLen = [text].
Proof.
  intros H. unfold splitText.
  destruct (Z.leb_spec (Z.of_nat (List.length text)) maxLen); [reflexivity | lia].
Qed.

Lemma splitText_short_witness :
  Z.of_nat (List.length (str "Hi. How are you?")) <= 200
  /\ splitText (str "Hi. How are you?") 200 = [str "Hi. How are you?"].
Proof.
  split; [vm_compute; discriminate |].
  apply (splitText_short (str "Hi. How are you?") 200).
  vm_compute; discriminate.
Defined.

Lemma splitText_long text m :
  m < Z.of_nat (List.length text) ->
  splitText text m
  = List.filter (fun s => 0 <? Z.of_nat (List.length (trim s)))
      (unfiltered text m).
Proof.
  intros H. unfold splitText.
  destruct (Z.leb_spec (Z.of_nat (List.length text)) m); [lia | reflexivity].
Qed.

(** *** Blank segments *)

Lemma trimStart_nil_iff s :
  trimStart s = [] <-> forallb is_white_space s = true.
Proof.
  induction s as [| c s IH]; simpl; [tauto |].
  destruct (is_white_space c); simpl; [exact IH |].
  split; discriminate.
Qed.

Lemma trimStart_suffix s : exists ws, s = ws ++ trimStart s
  /\ forallb is_white_space ws = true.
Proof.
  induction s as [| c s (ws & E & Hws)]; [exists []; split; reflexivity |].
  simpl. destruct (is_white_space c) eqn:Ec.
  - exists (c :: ws). simpl. rewrite Ec, Hws. split; [f_equal; exact E | reflexivity].
  - exists []. split; reflexivity.
Qed.

Lemma forallb_rev_eq {A} (f : A -> bool) l :
  forallb f (rev l) = forallb f l.
Proof.
  induction l as [| x l IH]; [reflexivity |].
  simpl. rewrite forallb_app, IH. simpl.
  rewrite andb_true_r. apply andb_comm.
Qed.

(** Nothing is left after [trim] exactly when every character is white
    space. *)
Lemma blank_iff s : trim s = [] <-> forallb is_white_space s = true.
Proof.
  unfold trim. split.
  - intros H.
    assert (H1 : trimStart (rev (trimStart s)) = []).
    { destruct (trimStart (rev (trimStart s))) as [| a l]; [reflexivity |].
      simpl in H. apply app_eq_nil in H as [_ H]. discriminate. }
    apply trimStart_nil_iff in H1. rewrite forallb_rev_eq in H1.
    destruct (trimStart_suffix s) as (ws & E & Hws).
    rewrite E, forallb_app, Hws, H1. reflexivity.
  - intros H. apply trimStart_nil_iff in H. rewrite H. reflexivity.
Qed.

Lemma kept_not_blank s :
  (0 <? Z.of_nat (List.length (trim s))) = true <-> trim s <> [].
Proof.
  destruct (trim s); simpl; split; try congruence; try discriminate.
  intros _. reflexivity.
Qed.

Lemma not_blank_has_char s :
  trim s <> [] -> exists c, In c s /\ is_white_space c = false.
Proof.
  intros H.
  destruct (forallb is_white_space s) eqn:E.
  - exfalso. apply H, blank_iff, E.
  - clear H. induction s as [| c s IH]; [discriminate |].
    simpl in E. destruct (is_white_space c) eqn:Ec.
    + destruct (IH E) as (d & Hd & Hw). exists d. split; [right; exact Hd | exact Hw].
    + exists c. split; [left; reflexivity | exact Ec].
Qed.

(** C6, as stated, fails on a short text: the early return hands back the
    text as it is, blank or not. *)
Lemma splitText_blank_counterexample :
  ~ (forall (text : jsstring) (maxLen : Z) (s : jsstring),
        In s (splitText text maxLen) -> trim s <> []).
Proof.
  intros H.
  apply (H (str "   ") 200 (str "   ")); [left |]; reflexivity.
Qed.

(** C6, amended. When the text is longer than [maxLen], no returned segment
    is empty or made of white space only: each one keeps a character after
    [trim]. *)
Theorem splitText_no_blank (text : jsstring) (maxLen : Z) (s : jsstring) :
  maxLen < Z.of_nat (List.length text) ->
  In s (splitText text maxLen) ->
  trim s <> [] /\ s <> []
  /\ exists c, In c s /\ is_white_space c = false.
Proof.
  intros Hlen Hin. rewrite splitText_long in Hin by exact Hlen.
  apply filter_In in Hin as [_ Hk]. apply kept_not_blank in Hk.
  split; [exact Hk |]. split.
  - intros ->. apply Hk. reflexivity.
  - apply not_blank_has_char, Hk.
Qed.

Lemma splitText_no_blank_witness :
  200 < Z.of_nat (List.length (str "Hello there. " ++ List.repeat 32 200))
  /\ In (str "Hello there.")
       (splitText (str "Hello there. " ++ List.repeat 32 200) 200)
  /\ trim (str "Hello there.") <> [].
Proof.
  assert (L : 200 < Z.of_nat (List.length (str "Hello there. " ++ List.repeat 32 200)))
    by (vm_compute; reflexivity).
  assert (I : In (str "Hello there.")
                (splitText (str "Hello there. " ++ List.repeat 32 200) 200))
    by (vm_compute; left; reflexivity).
  split; [exact L |]. split; [exact I |].
  exact (proj1 (splitText_no_blank _ 200 _ L I)).
Defined.

(** *** Oversized units *)

Lemma in_unfiltered text m s :
  In s (unfiltered text m) <->
  exists sentence, In sentence (sentences text) /\ In s (tier2 m [] sentence).
Proof. rewrite unfiltered_flat_map. apply in_flat_map. Qed.

(** A part longer than [maxLen] never joins another part: it is flushed as
    it stands. *)
Lemma pack_fold_oversized m parts p :
  m < Z.of_nat (List.length p) -> p <> [] ->
  let st := fold_left (pack_step m) parts ([], []) in
  In p parts -> In p (fst st) \/ snd st = p.
Proof.
  intros Hlen Hne.
  apply (fold_left_prefix_inv (pack_step m)
    (fun done st => In p done -> In p (fst st) \/ snd st = p)).
  - intros [].
  - intros done x rest [r cur] _ IH Hin. cbn [fst snd] in IH.
    apply in_app_iff in Hin.
    unfold pack_step.
    destruct (Z.leb_spec (Z.of_nat (List.length (cur ++ x))) m) as [Hfit | Hover];
      cbn [fst snd].
    + rewrite length_app in Hfit.
      destruct Hin as [Hin | [-> | []]]; [| lia].
      destruct (IH Hin) as [Hr | ->]; [left; exact Hr | lia].
    + destruct Hin as [Hin | [-> | []]]; [| right; reflexivity].
      left. apply in_push_current.
      destruct (IH Hin) as [Hr | ->]; [left; exact Hr |].
      right. split; [reflexivity | exact Hne].
Qed.

(** C7, as stated, fails on a unit made of white space only: it is flushed
    on its own, but the final filter then removes it. *)
Lemma oversized_unit_counterexample :
  ~ (forall (text : jsstring) (maxLen : Z) (sentence p : jsstring),
        maxLen < Z.of_nat (List.length text) ->
        In sentence (sentences text) ->
        maxLen < Z.of_nat (List.length sentence) ->
        In p (split is_comma sentence) ->
        Forall (fun c => is_comma c = false) p ->
        maxLen < Z.of_nat (List.length p) ->
        In p (splitText text maxLen)).
Proof.
  intros H.
  assert (Hin : In (str "   ") (splitText (str "   ,a") 2)).
  { apply (H (str "   ,a") 2 (str "   ,a") (str "   ")).
    - reflexivity.
    - left. reflexivity.
    - reflexivity.
    - left. reflexivity.
    - repeat constructor.
    - reflexivity. }
  vm_compute in Hin. destruct Hin as [Hin | []]. discriminate Hin.
Qed.

(** C7, amended. When the text is longer than [maxLen], a part of the comma
    split of a sentence longer than [maxLen] that is itself longer than
    [maxLen], and not blank, is returned as a segment of its own, whole. *)
Theorem oversized_unit_emitted (text : jsstring) (maxLen : Z)
    (sentence p : jsstring) :
  maxLen < Z.of_nat (List.length text) ->
  In sentence (sentences text) ->
  maxLen < Z.of_nat (List.length sentence) ->
  In p (split is_comma sentence) ->
  Forall (fun c => is_comma c = false) p ->
  maxLen < Z.of_nat (List.length p) ->
  trim p <> [] ->
  In p (splitText text maxLen).
Proof.
  intros Htext Hsent Hlong Hpart _ Hp Hnb.
  rewrite splitText_long by exact Htext.
  apply filter_In. split; [| apply kept_not_blank, Hnb].
  apply in_unfiltered. exists sentence. split; [exact Hsent |].
  rewrite tier2_long by exact Hlong.
  assert (Hne : p <> []) by (intros ->; apply Hnb; reflexivity).
  apply in_push_current.
  destruct (pack_fold_oversized maxLen (split is_comma sentence) p Hp Hne Hpart)
    as [Hr | Hc].
  - left. exact Hr.
  - right. split; [symmetry; exact Hc | rewrite Hc; exact Hne].
Qed.

Lemma oversized_unit_emitted_witness :
  In (str "abcdef") (splitText (str "abcdef,g. hi") 3).
Proof.
  apply (oversized_unit_emitted (str "abcdef,g. hi") 3 (str "abcdef,g.")
           (str "abcdef")).
  - reflexivity.
  - left. reflexivity.
  - reflexivity.
  - left. reflexivity.
  - repeat constructor.
  - reflexivity.
  - discriminate.
Defined.

(** Every segment of a long sentence fits in [maxLen] or is a single part
    of the comma split. *)
Lemma pack_fold_sizes m parts :
  0 <= m ->
  let st := fold_left (pack_step m) parts ([], []) in
  let P := fun s : jsstring =>
             Z.of_nat (List.length s) <= m \/ In s parts in
  Forall P (fst st) /\ P (snd st).
Proof.
  intros Hm.
  apply (fold_left_prefix_inv (pack_step m)
    (fun (_ : list jsstring) st =>
       Forall (fun s : jsstring =>
                 Z.of_nat (List.length s) <= m \/ In s parts) (fst st)
       /\ (Z.of_nat (List.length (snd st)) <= m \/ In (snd st) parts))).
  - split; [constructor | left; simpl; lia].
  - intros done x rest [r cur] E [Hr Hc]. cbn [fst snd] in Hr, Hc.
    unfold pack_step.
    destruct (Z.leb_spec (Z.of_nat (List.length (cur ++ x))) m) as [Hfit | Hover];
      cbn [fst snd].
    + split; [exact Hr | left; exact Hfit].
    + split.
      * apply List.Forall_forall. intros y Hy.
        apply in_push_current in Hy as [Hy | [-> _]]; [| exact Hc].
        revert y Hy. apply List.Forall_forall. exact Hr.
      * right. rewrite E. apply in_app_iff. right. left. reflexivity.
Qed.

(** C10, as stated, fails when [maxLen] is below 1: a comma alone is then
    already too long, and is returned as a segment. *)
Lemma comma_segment_counterexample :
  ~ (forall (text : jsstring) (maxLen : Z) (s : jsstring),
        maxLen < Z.of_nat (List.length text) ->
        In s (splitText text maxLen) ->
        Z.of_nat (List.length s) <= maxLen
        \/ Forall (fun c => is_comma c = false) s).
Proof.
  intros H.
  destruct (H (str ",") 0 (str ",")) as [Hlen | Hfree].
  - reflexivity.
  - left. reflexivity.
  - vm_compute in Hlen. apply Hlen. reflexivity.
  - inversion Hfree as [| c l Hc _]. discriminate Hc.
Qed.

(** C10, amended. For [maxLen] at least 1 and a text longer than [maxLen],
    every returned segment has length at most [maxLen] or is a single
    comma-free part of the comma split of a sentence longer than [maxLen];
    so a segment that holds a comma has length at most [maxLen]. *)
Theorem oversized_segments_comma_free (text : jsstring) (maxLen : Z)
    (s : jsstring) :
  1 <= maxLen ->
  maxLen < Z.of_nat (List.length text) ->
  In s (splitText text maxLen) ->
  Z.of_nat (List.length s) <= maxLen
  \/ (Forall (fun c => is_comma c = false) s
      /\ exists sentence,
           In sentence (sentences text)
           /\ maxLen < Z.of_nat (List.length sentence)
           /\ In s (split is_comma sentence)).
Proof.
  intros Hm Htext Hin.
  rewrite splitText_long in Hin by exact Htext.
  apply filter_In in Hin as [Hin _].
  apply in_unfiltered in Hin as (sentence & Hsent & Hin).
  destruct (Z_le_gt_dec (Z.of_nat (List.length sentence)) maxLen) as [Hs | Hs].
  - rewrite tier2_short in Hin by exact Hs.
    destruct Hin as [<- | []]. left. exact Hs.
  - rewrite tier2_long in Hin by lia.
    destruct (pack_fold_sizes maxLen (split is_comma sentence)) as [Hr Hc];
      [lia |].
    assert (HP : Z.of_nat (List.length s) <= maxLen
                 \/ In s (split is_comma sentence)).
    { apply in_push_current in Hin as [Hin | [-> _]]; [| exact Hc].
      revert s Hin. apply List.Forall_forall. exact Hr. }
    destruct HP as [HP | HP]; [left; exact HP |].
    destruct (split_capture_parts is_comma sentence [] s ltac:(constructor) HP)
      as [Hfree | (c & -> & _)].
    + right. split; [exact Hfree |]. exists sentence.
      split; [exact Hsent |]. split; [lia | exact HP].
    + left. simpl. lia.
Qed.

Lemma oversized_segments_comma_free_witness :
  Z.of_nat (List.length (str ",g.")) <= 3
  \/ (Forall (fun c => is_comma c = false) (str ",g.")
      /\ exists sentence,
           In sentence (sentences (str "abcdef,g. hi"))
           /\ 3 < Z.of_nat (List.length sentence)
           /\ In (str ",g.") (split is_comma sentence)).
Proof.
  apply (oversized_segments_comma_free (str "abcdef,g. hi") 3 (str ",g.")).
  - lia.
  - reflexivity.
  - right. left. reflexivity.
Defined.

(** *** Runs *)

Example split_sentences :
  split is_sentence_delimiter (str "a..b.")
  = [str "a"; str "."; str ""; str "."; str "b"; str "."; str ""].
Proof. reflexivity. Qed.

Example splitText_two_tiers :
  splitText (str "Hello world. How, are you? I am, fine! ") 8
  = [str "Hello world."; str " How,"; str " are you?"; str " I am,";
     str " fine!"].
Proof. vm_compute. reflexivity. Qed.

Example splitText_commas_alone :
  splitText (str "abc,def") 3 = [str "abc"; str ","; str "def"].
Proof. vm_compute. reflexivity. Qed.

(** U+4F60 U+597D U+FF0C U+4E16 U+754C U+3002 U+518D U+89C1 U+FF01: the
    full-width comma and the ideographic full stop cut as their ASCII
    counterparts do. *)
Example splitText_full_width :
  splitText [0x4F60; 0x597D; 0xFF0C; 0x4E16; 0x754C; 0x3002; 0x518D; 0x89C1;
             0xFF01] 4
  = [[0x4F60; 0x597D; 0xFF0C]; [0x4E16; 0x754C; 0x3002];
     [0x518D; 0x89C1; 0xFF01]].
Proof. vm_compute. reflexivity. Qed.

Example splitText_blank_unit_dropped :
  splitText (str "   ,a") 2 = [str ",a"].
Proof. vm_compute. reflexivity. Qed.

Example splitText_comma_over_zero : splitText (str ",") 0 = [str ","].
Proof. vm_compute. reflexivity. Qed.

Example splitText_blank_short : splitText (str "   ") 200 = [str "   "].
Proof. reflexivity. Qed.

End SegmenterFacts.

(** ** The header forge *)

Section HeaderFacts.
Import Headers.
Local Open Scope string_scope.

Variable md5 : jsstring -> jsstring.

Lemma getHeaders_dom env : dom (getHeaders md5 env) = field_names.
Proof.
  unfold getHeaders, field_names.
  rewrite !dom_insert_L, dom_empty_L. set_solver.
Qed.

Lemma getHeaders_size env : size (getHeaders md5 env) = 7.
Proof.
  unfold getHeaders.
  repeat (rewrite map_size_insert_None;
          [| repeat (rewrite lookup_insert_ne by discriminate);
             apply lookup_empty]).
  rewrite map_size_empty. reflexivity.
Qed.

Ltac header_lookup :=
  unfold getHeaders;
  repeat (rewrite lookup_insert_ne by discriminate);
  apply lookup_insert_eq.

(** C8. Whatever the clock and the random draws give, [getHeaders] returns
    a mapping whose field names are exactly the seven names
    [device-platform], [timestamp], [access-token], [zm-token], [zm-ver],
    [zm-ua] and [User-Agent]; [device-platform] is "Web", [zm-ver] is "1.2",
    [User-Agent] is the constant [ua]; and [zm-token] is the digest of
    [device-platform + timestamp + zm-ver + access-token + zm-ua], in this
    order. *)
Theorem getHeaders_fields (env : ambient) :
  let h := getHeaders md5 env in
  dom h = field_names /\ size h = 7
  /\ h !! "device-platform" = Some (str "Web")
  /\ h !! "zm-ver" = Some (str "1.2")
  /\ h !! "User-Agent" = Some ua
  /\ exists device timestamp ver accessToken zmUa : jsstring,
       h !! "device-platform" = Some device
       /\ h !! "timestamp" = Some timestamp
       /\ h !! "zm-ver" = Some ver
       /\ h !! "access-token" = Some accessToken
       /\ h !! "zm-ua" = Some zmUa
       /\ zmUa = md5 ua
       /\ h !! "zm-token"
          = Some (md5 (device ++ timestamp ++ ver ++ accessToken ++ zmUa)%list).
Proof.
  intros h. subst h.
  split; [apply getHeaders_dom |]. split; [apply getHeaders_size |].
  split; [header_lookup |]. split; [header_lookup |]. split; [header_lookup |].
  exists (str "Web"), (getIso8601Time env), (str "1.2"), (generateMid env),
    (md5 ua).
  repeat split; header_lookup.
Qed.

End HeaderFacts.

(** ** The chunk assembler *)

Section ChunkFacts.
Import Chunks.

(** *** [merge] is concatenation *)

Lemma total_length (chunks : list Uint8Array) a :
  fold_left (fun acc c => acc + length c) chunks a
  = a + length (concat chunks).
Proof.
  revert a. induction chunks as [| c chunks IH]; intros a; simpl; [lia |].
  rewrite IH, length_app. lia.
Qed.

Lemma merge_fold (chunks : list Uint8Array) (pre : Uint8Array) r :
  fold_left
    (fun '(merged, offset) chunk =>
       (set_at merged chunk offset, offset + length chunk))
    chunks
    (pre ++ replicate (length (concat chunks) + r) Byte.x00, length pre)
  = (pre ++ concat chunks ++ replicate r Byte.x00,
     length pre + length (concat chunks)).
Proof.
  revert pre. induction chunks as [| c chunks IH]; intros pre.
  - simpl. rewrite Nat.add_0_r. reflexivity.
  - cbn [fold_left concat].
    assert (E : set_at (pre ++ replicate (length (c ++ concat chunks) + r) Byte.x00)
                  c (length pre)
                = (pre ++ c) ++ replicate (length (concat chunks) + r) Byte.x00).
    { unfold set_at. rewrite take_app_length, drop_app_add.
      rewrite length_app, <- Nat.add_assoc, drop_replicate_add.
      rewrite <- app_assoc. reflexivity. }
    rewrite E. replace (length pre + length c) with (length (pre ++ c))
      by apply length_app.
    rewrite IH, !length_app, <- !app_assoc. f_equal. lia.
Qed.

Lemma merge_concat chunks : merge chunks = concat chunks.
Proof.
  unfold merge. rewrite total_length. simpl.
  pose proof (merge_fold chunks [] 0) as H. simpl in H.
  rewrite Nat.add_0_r in H. rewrite H. simpl. apply app_nil_r.
Qed.

(** *** The [results] array *)

Section Batches.

Variable texts : list jsstring.
Variable fetch : nat -> outcome.

Lemma fetchOne_length i (r : list (option Uint8Array)) :
  length (fetchOne fetch i r) = length r.
Proof.
  unfold fetchOne. destruct (fetch i) as [| | cs [|]]; try reflexivity.
  apply length_insert.
Qed.

Lemma fetchOne_ne i j (r : list (option Uint8Array)) :
  i <> j -> fetchOne fetch i r !! j = r !! j.
Proof.
  intros H. unfold fetchOne. destruct (fetch i) as [| | cs [|]]; try reflexivity.
  apply list_lookup_insert_ne, H.
Qed.

(** The write of task [j] leaves [results[j]] holding the outcome of [j],
    whether it is the first write or a repeated one. *)
Lemma fetchOne_eq j (r : list (option Uint8Array)) :
  r !! j = Some None \/ r !! j = Some (succeeded (fetch j)) ->
  fetchOne fetch j r !! j = Some (succeeded (fetch j)).
Proof.
  intros H. unfold fetchOne, succeeded in *.
  destruct (fetch j) as [| | cs [|]]; try (destruct H as [H | H]; exact H).
  apply list_lookup_insert_eq.
  destruct H as [H | H]; apply lookup_lt_Some in H; exact H.
Qed.

Lemma settle_all_length order (r : list (option Uint8Array)) :
  length (settle_all fetch order r) = length r.
Proof.
  revert r. induction order as [| i order IH]; intros r; [reflexivity |].
  simpl. rewrite IH. apply fetchOne_length.
Qed.

Lemma settle_all_notin order j (r : list (option Uint8Array)) :
  ~ In j order -> settle_all fetch order r !! j = r !! j.
Proof.
  revert r. induction order as [| i order IH]; intros r H; [reflexivity |].
  simpl. rewrite IH by (intros H'; apply H; right; exact H').
  apply fetchOne_ne. intros ->. apply H. left. reflexivity.
Qed.

Lemma settle_all_stable order j (r : list (option Uint8Array)) :
  r !! j = Some (succeeded (fetch j)) ->
  settle_all fetch order r !! j = Some (succeeded (fetch j)).
Proof.
  revert r. induction order as [| i order IH]; intros r H; [exact H |].
  simpl. apply IH. destruct (Nat.eq_dec i j) as [-> | Hne].
  - apply fetchOne_eq. right. exact H.
  - rewrite fetchOne_ne by exact Hne. exact H.
Qed.

(** Whatever the order in which the tasks settle, a slot that was empty holds
    the outcome of its own task once all the tasks have settled. *)
Lemma settle_all_in order j (r : list (option Uint8Array)) :
  In j order -> r !! j = Some None ->
  settle_all fetch order r !! j = Some (succeeded (fetch j)).
Proof.
  revert r. induction order as [| i order IH]; intros r Hin H; [destruct Hin |].
  simpl. destruct (Nat.eq_dec i j) as [-> | Hne].
  - apply settle_all_stable, fetchOne_eq. left. exact H.
  - apply IH.
    + destruct Hin as [E | Hin]; [contradiction | exact Hin].
    + rewrite fetchOne_ne by exact Hne. exact H.
Qed.

Lemma flat_map_ext_in {A B} (f g : A -> list B) l :
  (forall x, In x l -> f x = g x) -> flat_map f l = flat_map g l.
Proof.
  induction l as [| x l IH]; intros H; [reflexivity |].
  simpl. rewrite (H x) by (left; reflexivity).
  rewrite IH by (intros y Hy; apply H; right; exact Hy). reflexivity.
Qed.

(** One batch, whatever its completion order: the events are those of
    [batch_events], and the later slots stay empty. *)
Lemma run_batch_spec sched c bs results trace :
  sched bs ≡ₚ batch_indices (length texts) c bs ->
  fresh_from (length texts) bs results ->
  exists results',
    run_batch fetch (sched bs) bs (Nat.min (bs + c) (length texts)) (results, trace)
    = (results', trace ++ batch_events fetch (length texts) c sched bs)
    /\ fresh_from (length texts) (bs + c) results'.
Proof.
  intros Hs [Hlen Hfresh].
  exists (settle_all fetch (sched bs) results). split.
  - unfold run_batch, batch_events. do 4 f_equal.
    unfold yield_batch. apply flat_map_ext_in. intros i Hi.
    rewrite (settle_all_in (sched bs) i results).
    + unfold yield_of. destruct (succeeded (fetch i)); reflexivity.
    + apply (Permutation_in i (Permutation_sym Hs)). exact Hi.
    + apply Hfresh. apply in_seq in Hi. lia.
  - split; [rewrite settle_all_length; exact Hlen |].
    intros j Hj. rewrite settle_all_notin; [apply Hfresh; lia |].
    intros Hin. apply (Permutation_in j Hs) in Hin.
    apply in_seq in Hin. lia.
Qed.

(** *** The loop over the batches *)

(** The loop ends within [texts.length] turns, and what holds at the start
    and is kept by every batch holds at the end. *)
Lemma batches_inv (I : nat -> list event -> Prop) sched c :
  1 <= c -> valid_sched (length texts) c sched ->
  (forall bs trace,
     bs < length texts ->
     sched bs ≡ₚ batch_indices (length texts) c bs ->
     I bs trace ->
     I (bs + c) (trace ++ batch_events fetch (length texts) c sched bs)) ->
  forall fuel bs results trace,
    (exists k, bs = k * c) ->
    fresh_from (length texts) bs results ->
    length texts - bs <= fuel -> I bs trace ->
    exists trace' bs',
      batches texts fetch sched c fuel bs (results, trace) = Some trace'
      /\ length texts <= bs' /\ I bs' trace'.
Proof.
  intros Hc Hs Hstep.
  induction fuel as [| fuel IH]; intros bs results trace [k Hk] Hfresh Hfuel HI.
  - exists trace, bs. simpl.
    destruct (Nat.leb_spec (length texts) bs); [| lia].
    split; [reflexivity |]. split; [lia | exact HI].
  - cbn [batches].
    destruct (Nat.leb_spec (length texts) bs) as [Hdone | Hmore].
    + exists trace, bs. split; [reflexivity |]. split; [exact Hdone | exact HI].
    + assert (Hperm : sched bs ≡ₚ batch_indices (length texts) c bs)
        by (rewrite Hk; apply Hs; lia).
      destruct (run_batch_spec sched c bs results trace Hperm Hfresh)
        as (results' & -> & Hfresh').
      apply IH; [exists (S k); lia | exact Hfresh' | lia |].
      apply Hstep; assumption.
Qed.

(** *** What the generator hands out *)

Lemma emitted_app t1 t2 : emitted (t1 ++ t2) = emitted t1 ++ emitted t2.
Proof. apply flat_map_app. Qed.

Lemma emitted_launches l : emitted (List.map Launch l) = [].
Proof. induction l as [| i l IH]; [reflexivity | exact IH]. Qed.

Lemma emitted_settles l : emitted (List.map Settle l) = [].
Proof. induction l as [| i l IH]; [reflexivity | exact IH]. Qed.

Lemma emitted_yields l :
  emitted (flat_map (yield_of fetch) l)
  = flat_map (fun i => match succeeded (fetch i) with
                       | Some b => [(i, b)]
                       | None => []
                       end) l.
Proof.
  induction l as [| i l IH]; [reflexivity |].
  simpl. rewrite emitted_app, IH. unfold yield_of.
  destruct (succeeded (fetch i)); reflexivity.
Qed.

Lemma emitted_batch c sched bs :
  emitted (batch_events fetch (length texts) c sched bs)
  = flat_map (fun i => match succeeded (fetch i) with
                       | Some b => [(i, b)]
                       | None => []
                       end)
      (seq bs (Nat.min (bs + c) (length texts) - bs)).
Proof.
  unfold batch_events.
  rewrite !emitted_app, emitted_launches, emitted_settles, emitted_yields.
  reflexivity.
Qed.

Lemma in_successes_range a len i b :
  In (i, b)
    (flat_map (fun i => match succeeded (fetch i) with
                        | Some b => [(i, b)]
                        | None => []
                        end) (seq a len)) <->
  a <= i < a + len /\ succeeded (fetch i) = Some b.
Proof.
  rewrite in_flat_map. split.
  - intros (x & Hx & Hin). apply in_seq in Hx.
    destruct (succeeded (fetch x)) as [b' |] eqn:E; [| destruct Hin].
    destruct Hin as [[= -> ->] | []]. split; [lia | exact E].
  - intros [Hi E]. exists i. split; [apply in_seq; lia |].
    rewrite E. left. reflexivity.
Qed.

(** The indices handed out go strictly up. *)
Lemma successes_ascending a len :
  StronglySorted lt
    (List.map fst
       (flat_map (fun i => match succeeded (fetch i) with
                           | Some b => [(i, b)]
                           | None => []
                           end) (seq a len))).
Proof.
  revert a. induction len as [| len IH]; intros a; [constructor |].
  cbn [seq flat_map]. rewrite map_app.
  assert (Hrest : List.Forall (lt a)
            (List.map fst
               (flat_map (fun i => match succeeded (fetch i) with
                                   | Some b => [(i, b)]
                                   | None => []
                                   end) (seq (S a) len)))).
  { apply List.Forall_forall. intros x Hx.
    apply in_map_iff in Hx as ([i b] & <- & Hin).
    apply in_successes_range in Hin. simpl. lia. }
  destruct (succeeded (fetch a)); simpl.
  - constructor; [apply IH | exact Hrest].
  - apply IH.
Qed.

(** *** The barrier *)

Lemma barrier_app c st t1 t2 :
  barrier (length texts) c st (t1 ++ t2) <->
  barrier (length texts) c st t1
  /\ barrier (length texts) c (st ++ settled_in t1) t2.
Proof.
  revert st. induction t1 as [| e t1 IH]; intros st.
  - simpl. rewrite app_nil_r. tauto.
  - destruct e as [j | i | i b]; cbn [app barrier].
    + rewrite IH. simpl. tauto.
    + rewrite IH. change (settled_in (Settle i :: t1)) with (i :: settled_in t1).
      replace ((st ++ [i]) ++ settled_in t1) with (st ++ i :: settled_in t1)
        by (rewrite <- app_assoc; reflexivity).
      tauto.
    + rewrite IH. simpl. tauto.
Qed.

Lemma in_settled_in i t : In i (settled_in t) <-> In (Settle i) t.
Proof.
  unfold settled_in. rewrite in_flat_map. split.
  - intros ([j | j | j b] & He & Hin); simpl in Hin;
      [contradiction | | contradiction].
    destruct Hin as [-> | []]. exact He.
  - intros H. exists (Settle i). split; [exact H | left; reflexivity].
Qed.

Lemma settled_in_app t1 t2 :
  settled_in (t1 ++ t2) = settled_in t1 ++ settled_in t2.
Proof. apply flat_map_app. Qed.

Lemma settled_in_launches l : settled_in (List.map Launch l) = [].
Proof. induction l as [| i l IH]; [reflexivity | exact IH]. Qed.

Lemma settled_in_settles l : settled_in (List.map Settle l) = l.
Proof. induction l as [| i l IH]; [reflexivity | simpl; f_equal; exact IH]. Qed.

Lemma settled_in_yields l : settled_in (flat_map (yield_of fetch) l) = [].
Proof.
  induction l as [| i l IH]; [reflexivity |].
  simpl. rewrite settled_in_app, IH. unfold yield_of.
  destruct (succeeded (fetch i)); reflexivity.
Qed.

Lemma barrier_launches c st l :
  (forall j, In j l -> forall i, i / c < j / c -> In i st) ->
  barrier (length texts) c st (List.map Launch l).
Proof.
  induction l as [| j l IH]; intros H; simpl; [exact I |].
  split; [apply H; left; reflexivity |].
  apply IH. intros j' Hj'. apply H. right. exact Hj'.
Qed.

Lemma barrier_settles c st l : barrier (length texts) c st (List.map Settle l).
Proof.
  revert st. induction l as [| i l IH]; intros st; simpl; [exact I | apply IH].
Qed.

Lemma barrier_yields c st l :
  (forall i, In i l ->
     forall j, j < length texts -> j / c = i / c -> In j st) ->
  barrier (length texts) c st (flat_map (yield_of fetch) l).
Proof.
  induction l as [| i l IH]; intros H; simpl; [exact I |].
  apply barrier_app. split.
  - unfold yield_of. destruct (succeeded (fetch i)); simpl; [| exact I].
    split; [apply H; left; reflexivity | exact I].
  - assert (E : settled_in (yield_of fetch i) = []).
    { unfold yield_of. destruct (succeeded (fetch i)); reflexivity. }
    rewrite E, app_nil_r. apply IH. intros i' Hi'. apply H. right. exact Hi'.
Qed.

(** Batch number of an index inside the batch that starts at [k * c]. *)
Lemma div_in_batch c k j : k * c <= j < k * c + c -> j / c = k.
Proof.
  intros H. symmetry. apply (Nat.div_unique j c k (j - k * c)); lia.
Qed.

Lemma div_lt_batch c k i : 1 <= c -> i / c < k -> i < k * c.
Proof.
  intros Hc H. pose proof (Nat.div_mod_eq i c) as E.
  pose proof (Nat.mod_upper_bound i c ltac:(lia)). nia.
Qed.

Lemma div_eq_batch c k j : 1 <= c -> j / c = k -> k * c <= j < k * c + c.
Proof.
  intros Hc H. pose proof (Nat.div_mod_eq j c) as E.
  pose proof (Nat.mod_upper_bound j c ltac:(lia)). nia.
Qed.

Lemma between_batches_step sched c bs trace :
  1 <= c -> bs < length texts ->
  sched bs ≡ₚ batch_indices (length texts) c bs ->
  between_batches fetch (length texts) c bs trace ->
  between_batches fetch (length texts) c (bs + c)
    (trace ++ batch_events fetch (length texts) c sched bs).
Proof.
  intros Hc Hbs Hperm ([k Hk] & Hem & Hbar & Hset).
  unfold batch_indices in Hperm.
  set (len := Nat.min (bs + c) (length texts) - bs) in *.
  assert (Hin : forall j, In j (sched bs) <-> bs <= j < bs + len).
  { intros j. rewrite <- in_seq. split; apply Permutation_in;
      [exact Hperm | apply Permutation_sym; exact Hperm]. }
  replace (Nat.min bs (length texts)) with bs in * by lia.
  split; [exists (S k); lia |]. split; [| split].
  - rewrite emitted_app, Hem, emitted_batch. fold len. unfold successes.
    rewrite <- flat_map_app.
    change (seq bs len) with (seq (0 + bs) len).
    rewrite <- (seq_app bs len 0).
    f_equal. f_equal. lia.
  - apply barrier_app. split; [exact Hbar |].
    unfold batch_events. fold len. cbn [app].
    apply barrier_app. split.
    + apply barrier_launches. intros j Hj i Hi.
      apply Hset. apply in_seq in Hj.
      rewrite (div_in_batch c k j) in Hi by lia.
      apply div_lt_batch in Hi; lia.
    + rewrite settled_in_launches, app_nil_r.
      apply barrier_app. split; [apply barrier_settles |].
      rewrite settled_in_settles. apply barrier_yields.
      intros i Hi j Hj Hdiv. apply in_app_iff. right. apply Hin.
      apply in_seq in Hi.
      rewrite (div_in_batch c k i) in Hdiv by lia.
      apply div_eq_batch in Hdiv; lia.
  - intros i Hi. rewrite settled_in_app. apply in_app_iff.
    destruct (Nat.lt_ge_cases i bs) as [Hlt | Hge].
    + left. apply Hset, Hlt.
    + right. unfold batch_events. fold len.
      rewrite !settled_in_app, settled_in_launches, settled_in_settles,
        settled_in_yields, app_nil_r. simpl.
      apply Hin. lia.
Qed.

(** The batched mode runs to its end. *)
Lemma batched_run sched (concurrency : Z) :
  (1 < concurrency)%Z -> 2 < length texts ->
  valid_sched (length texts) (Z.to_nat concurrency) sched ->
  exists trace,
    getAudioChunks texts fetch sched concurrency = Some trace
    /\ emitted trace = successes fetch (length texts)
    /\ barrier (length texts) (Z.to_nat concurrency) [] trace
    /\ (forall i, i < length texts -> In (Settle i) trace).
Proof.
  intros Hc Hn Hs. unfold getAudioChunks.
  destruct (Z.leb_spec concurrency 1) as [H | _]; [lia |].
  destruct (Nat.leb_spec (length texts) 2) as [H | _]; [lia |].
  cbn [orb].
  assert (Hc' : 1 <= Z.to_nat concurrency) by lia.
  destruct (batches_inv (between_batches fetch (length texts) (Z.to_nat concurrency)) sched
              (Z.to_nat concurrency) Hc' Hs
              (fun bs trace =>
                 between_batches_step sched (Z.to_nat concurrency) bs trace
                   Hc')
              (length texts) 0 (replicate (length texts) None) [])
    as (trace & bs' & E & Hbs' & (_ & Hem & Hbar & Hset)).
  - exists 0. reflexivity.
  - split; [apply length_replicate |].
    intros j Hj. apply lookup_replicate_2. lia.
  - lia.
  - split; [exists 0; reflexivity |]. split; [reflexivity |].
    split; [exact I |]. intros i Hi. simpl in Hi. lia.
  - exists trace. split; [exact E |]. split; [| split; [exact Hbar |]].
    + rewrite Hem. f_equal. lia.
    + intros i Hi. apply in_settled_in, Hset. lia.
Qed.

(** The barrier, said of the prefixes of the trace. *)
Lemma barrier_yield_awaited c trace pre i b post :
  barrier (length texts) c [] trace ->
  trace = pre ++ Yield i b :: post ->
  forall j, j < length texts -> j / c = i / c -> In (Settle j) pre.
Proof.
  intros Hbar -> j Hj Hdiv.
  apply barrier_app in Hbar as [_ [H _]].
  apply in_settled_in. exact (H j Hj Hdiv).
Qed.

Lemma barrier_launch_awaited c trace pre j post :
  barrier (length texts) c [] trace ->
  trace = pre ++ Launch j :: post ->
  forall i, i / c < j / c -> In (Settle i) pre.
Proof.
  intros Hbar -> i Hdiv.
  apply barrier_app in Hbar as [_ [H _]].
  apply in_settled_in. exact (H i Hdiv).
Qed.

(** *** The serial mode *)

Lemma serial_run sched (concurrency : Z) :
  (concurrency <= 1)%Z \/ length texts <= 2 ->
  getAudioChunks texts fetch sched concurrency
  = Some (getAudioChunksSerial texts fetch).
Proof.
  intros H. unfold getAudioChunks.
  destruct (Z.leb_spec concurrency 1); [reflexivity |].
  destruct (Nat.leb_spec (length texts) 2); [reflexivity | lia].
Qed.

Lemma emitted_yield_chunks i (chunks : list Uint8Array) :
  emitted (List.map (Yield i) chunks) = List.map (pair i) chunks.
Proof.
  induction chunks as [| c chunks IH]; [reflexivity |].
  simpl. f_equal. exact IH.
Qed.

(** In serial mode every chunk that was read is handed out, those of a
    request that fails later included. *)
Lemma emitted_serial :
  emitted (getAudioChunksSerial texts fetch)
  = flat_map (fun i => List.map (pair i) (delivered (fetch i)))
      (seq 0 (length texts)).
Proof.
  unfold getAudioChunksSerial. generalize (seq 0 (length texts)) as l.
  induction l as [| i l IH]; [reflexivity |].
  cbn [flat_map]. rewrite emitted_app, IH. f_equal.
  unfold serial_one. rewrite !emitted_app. simpl. rewrite app_nil_r.
  destruct (fetch i) as [| | cs ok]; try reflexivity.
  apply emitted_yield_chunks.
Qed.


End Batches.

(** *** Order and barrier *)

(** A buffer among the successes is the concatenation of the chunks of a
    body that was read to its end. *)
Lemma in_successes_assembled (fetch : nat -> outcome) n i b :
  In (i, b) (successes fetch n) ->
  exists cs, fetch i = Body cs true /\ b = concat cs.
Proof.
  intros Hin. apply in_successes_range in Hin as [_ Hin].
  unfold succeeded in Hin.
  destruct (fetch i) as [| | cs [|]]; try discriminate.
  injection Hin as <-. exists cs. split; [reflexivity | apply merge_concat].
Qed.

(** C1. In batched mode (concurrency above 1, more than 2 segments), for
    every outcome of every request and every order in which the tasks of a
    batch settle, the generator runs to its end and hands out the assembled
    buffers of the segments that succeeded (each the concatenation of the
    chunks of its body), by strictly ascending segment index; another
    completion order gives the same buffers in the same order; a buffer is
    handed out only after every task of its batch has settled, and a task
    is launched only after every task of the earlier batches has settled. *)
Theorem batched_order (texts : list jsstring) (fetch : nat -> outcome)
    (sched : nat -> list nat) (concurrency : Z) :
  (1 < concurrency)%Z -> 2 < length texts ->
  valid_sched (length texts) (Z.to_nat concurrency) sched ->
  exists trace,
    getAudioChunks texts fetch sched concurrency = Some trace
    /\ emitted trace = successes fetch (length texts)
    /\ (forall i b, In (i, b) (emitted trace) ->
          exists cs, fetch i = Body cs true /\ b = concat cs)
    /\ StronglySorted lt (List.map fst (emitted trace))
    /\ (forall sched',
          valid_sched (length texts) (Z.to_nat concurrency) sched' ->
          exists trace',
            getAudioChunks texts fetch sched' concurrency = Some trace'
            /\ emitted trace' = emitted trace)
    /\ (forall pre i b post,
          trace = pre ++ Yield i b :: post ->
          forall j, j < length texts ->
            j / Z.to_nat concurrency = i / Z.to_nat concurrency ->
            In (Settle j) pre)
    /\ (forall pre j post,
          trace = pre ++ Launch j :: post ->
          forall i, i / Z.to_nat concurrency < j / Z.to_nat concurrency ->
            In (Settle i) pre).
Proof.
  intros Hc Hn Hs.
  destruct (batched_run texts fetch sched concurrency Hc Hn Hs)
    as (trace & E & Hem & Hbar & _).
  exists trace. split; [exact E |]. split; [exact Hem |].
  split; [rewrite Hem; apply in_successes_assembled |].
  split; [rewrite Hem; apply successes_ascending |].
  split; [| split].
  - intros sched' Hs'.
    destruct (batched_run texts fetch sched' concurrency Hc Hn Hs')
      as (trace' & E' & Hem' & _).
    exists trace'. split; [exact E' | rewrite Hem, Hem'; reflexivity].
  - intros pre i b post Et.
    eapply (barrier_yield_awaited texts fetch); [exact Hbar | exact Et].
  - intros pre j post Et.
    eapply (barrier_launch_awaited texts fetch); [exact Hbar | exact Et].
Qed.

(** Five segments, two at a time, the later task of each batch settling
    first: the buffers still come out in the order 0, 1, 2, 3, 4. *)
Lemma batched_order_witness :
  exists trace,
    getAudioChunks (replicate 5 (str "text."))
      (fun i => Body [replicate (S i) Byte.x01] true)
      (fun bs => rev (batch_indices 5 2 bs)) 2
    = Some trace
    /\ List.map fst (emitted trace) = [0; 1; 2; 3; 4].
Proof.
  destruct (batched_order (replicate 5 (str "text."))
              (fun i => Body [replicate (S i) Byte.x01] true)
              (fun bs => rev (batch_indices 5 2 bs)) 2)
    as (trace & E & Hem & _).
  - reflexivity.
  - simpl. lia.
  - intros k _. apply Permutation_sym, Permutation_rev.
  - exists trace. split; [exact E |]. rewrite Hem. reflexivity.
Defined.

(** *** One failing segment *)

Lemma map_fst_successes (fetch : nat -> outcome) (l : list nat) :
  (forall i, In i l -> exists cs, fetch i = Body cs true) ->
  List.map fst
    (flat_map (fun i => match succeeded (fetch i) with
                        | Some b => [(i, b)]
                        | None => []
                        end) l) = l.
Proof.
  induction l as [| i l IH]; intros H; [reflexivity |].
  cbn [flat_map]. rewrite map_app, IH by (intros j Hj; apply H; right; exact Hj).
  destruct (H i ltac:(left; reflexivity)) as [cs ->]. reflexivity.
Qed.

(** C2, as stated, fails in serial mode: with two segments the generator
    hands out each chunk as it is read, so a chunk read from the second
    request before it fails has already gone out. *)
Lemma single_failure_counterexample :
  ~ (forall (texts : list jsstring) (fetch : nat -> outcome)
            (sched : nat -> list nat) (concurrency : Z) (k : nat),
        k < length texts ->
        succeeded (fetch k) = None ->
        (forall i, i < length texts -> i <> k ->
           exists cs, fetch i = Body cs true) ->
        valid_sched (length texts) (Z.to_nat concurrency) sched ->
        exists trace,
          getAudioChunks texts fetch sched concurrency = Some trace
          /\ emitted trace = successes fetch (length texts)).
Proof.
  intros H.
  destruct (H [str "One."; str "Two."]
              (fun i => match i with
                        | 1 => Body [[Byte.x02]] false
                        | _ => Body [[Byte.x01]] true
                        end)
              (fun bs => batch_indices 2 3 bs) 3%Z 1)
    as (trace & E & Hem).
  - simpl. lia.
  - reflexivity.
  - intros i Hi Hne. simpl in Hi.
    destruct i as [| [| i]]; [exists [[Byte.x01]]; reflexivity | lia | lia].
  - intros k _. reflexivity.
  - vm_compute in E. injection E as <-. vm_compute in Hem. discriminate Hem.
Qed.

(** C2, amended. One request fails, the others succeed.  In batched mode
    the generator runs to its end, every task settles, and it hands out
    exactly the assembled buffers of the other segments, by ascending
    index, nothing standing for the failed one.  In serial mode it also
    runs to its end, and hands out, segment after segment, every chunk that
    was read, those read from the failing request before its failure
    included. *)
Theorem single_failure (texts : list jsstring) (fetch : nat -> outcome)
    (sched : nat -> list nat) (concurrency : Z) (k : nat) :
  k < length texts ->
  succeeded (fetch k) = None ->
  (forall i, i < length texts -> i <> k -> exists cs, fetch i = Body cs true) ->
  ((1 < concurrency)%Z -> 2 < length texts ->
   valid_sched (length texts) (Z.to_nat concurrency) sched ->
   exists trace,
     getAudioChunks texts fetch sched concurrency = Some trace
     /\ List.map fst (emitted trace)
        = seq 0 k ++ seq (S k) (length texts - S k)
     /\ (forall i b, In (i, b) (emitted trace) ->
           exists cs, fetch i = Body cs true /\ b = concat cs)
     /\ (forall i, i < length texts -> In (Settle i) trace))
  /\ ((concurrency <= 1)%Z \/ length texts <= 2 ->
      exists trace,
        getAudioChunks texts fetch sched concurrency = Some trace
        /\ emitted trace
           = flat_map (fun i => List.map (pair i) (delivered (fetch i)))
               (seq 0 (length texts))).
Proof.
  intros Hk Hfail Hok. split.
  - intros Hc Hn Hs.
    destruct (batched_run texts fetch sched concurrency Hc Hn Hs)
      as (trace & E & Hem & _ & Hset).
    exists trace. split; [exact E |]. split; [| split; [| exact Hset]].
    + rewrite Hem. unfold successes.
      replace (length texts) with (k + S (length texts - S k)) at 1 by lia.
      rewrite seq_app. change (0 + k) with k. cbn [seq].
      rewrite flat_map_app, map_app. cbn [flat_map].
      rewrite Hfail. cbn [app].
      rewrite !map_fst_successes; [reflexivity | |];
        intros i Hi; apply in_seq in Hi; apply Hok; lia.
    + rewrite Hem. apply in_successes_assembled.
  - intros Hmode. exists (getAudioChunksSerial texts fetch).
    split; [apply serial_run, Hmode | apply emitted_serial].
Qed.

(** Segment 2 of 5 fails, three requests at a time: four buffers come out,
    those of segments 0, 1, 3 and 4, in this order. *)
Lemma single_failure_witness :
  exists trace,
    getAudioChunks (replicate 5 (str "text."))
      (fun i => match i with
                | 2 => Rejected
                | _ => Body [replicate (S i) Byte.x01] true
                end)
      (fun bs => rev (batch_indices 5 3 bs)) 3
    = Some trace
    /\ List.map fst (emitted trace) = [0; 1; 3; 4].
Proof.
  destruct (single_failure (replicate 5 (str "text."))
              (fun i => match i with
                        | 2 => Rejected
                        | _ => Body [replicate (S i) Byte.x01] true
                        end)
              (fun bs => rev (batch_indices 5 3 bs)) 3 2)
    as [Hbatched _].
  - simpl. lia.
  - reflexivity.
  - intros i Hi Hne.
    destruct i as [| [| [| i]]]; [eexists; reflexivity .. | contradiction |
                                  eexists; reflexivity].
  - destruct Hbatched as (trace & E & Hidx & _).
    + reflexivity.
    + simpl. lia.
    + intros k _. apply Permutation_sym, Permutation_rev.
    + exists trace. split; [exact E | exact Hidx].
Defined.

(** *** Runs *)

(** Five segments, two at a time, the later task of each batch settling
    first, segment 2 rejected. *)
Example run_inverted_latencies :
  getAudioChunks (replicate 5 (str "text."))
    (fun i => match i with
              | 2 => Rejected
              | _ => Body [[Byte.x01]; replicate i Byte.x02] true
              end)
    (fun bs => rev (batch_indices 5 2 bs)) 2
  = Some [Launch 0; Launch 1; Settle 1; Settle 0;
          Yield 0 [Byte.x01]; Yield 1 [Byte.x01; Byte.x02];
          Launch 2; Launch 3; Settle 3; Settle 2;
          Yield 3 [Byte.x01; Byte.x02; Byte.x02; Byte.x02];
          Launch 4; Settle 4;
          Yield 4 [Byte.x01; Byte.x02; Byte.x02; Byte.x02; Byte.x02]].
Proof. vm_compute. reflexivity. Qed.

(** Two segments: serial mode; the second body breaks after one chunk. *)
Example run_serial_partial :
  getAudioChunks [str "One."; str "Two."]
    (fun i => match i with
              | 1 => Body [[Byte.x02]] false
              | _ => Body [[Byte.x01]; [Byte.x03]] true
              end)
    (fun bs => batch_indices 2 3 bs) 3
  = Some [Launch 0; Yield 0 [Byte.x01]; Yield 0 [Byte.x03]; Settle 0;
          Launch 1; Yield 1 [Byte.x02]; Settle 1].
Proof. vm_compute. reflexivity. Qed.

End ChunkFacts.

(** * Further properties *)

(** ** The hash, on genuine strings *)

Section HashMore.
Import JS Hash.
Local Open Scope Z_scope.

Lemma e_fold (s : jsstring) : _e s = fold_left _e_body (rev s) 0.
Proof.
  unfold _e. rewrite (for_down_fold _e_body) by lia.
  rewrite firstn_all. reflexivity.
Qed.

(** X1. The hash of a string is one turn of the loop applied to the hash
    of the string without its first character and to that character: the
    first character is the last one hashed. *)
Theorem e_cons (c : Z) (s : jsstring) : _e (c :: s) = _e_body (_e s) c.
Proof.
  rewrite !e_fold. cbn [rev]. rewrite fold_left_app. reflexivity.
Qed.

(** With a code unit, the sum of a turn stays below 2^31: nothing wraps. *)
Lemma body_code_unit at_ st :
  code_unit st -> 0 <= _e_body at_ st < 2 ^ 31.
Proof.
  unfold code_unit. intros Hst. rewrite body_ref_step. unfold ref_step.
  pose proof (land_mask_bound (Z.shiftl at_ 6) MASK1 28 ltac:(lia) eq_refl)
    as Hx.
  rewrite (Z.shiftl_mul_pow2 st 14) by lia.
  set (sum := Z.land (Z.shiftl at_ 6) MASK1 + st + st * 2 ^ 14).
  assert (Hsum : 0 <= sum < 2 ^ 31) by (unfold sum; lia).
  assert (Ht : truncateToSigned32 sum = sum).
  { rewrite truncate_ToInt32. apply ToInt32_id. unfold int32, two31. lia. }
  rewrite Ht.
  destruct (Z.eqb_spec (Z.land sum MASK2) 0) as [_ | _]; [exact Hsum |].
  pose proof (land_mask_bound sum MASK2 28 ltac:(lia) eq_refl) as Hf.
  apply (lxor_bound 31); [lia | exact Hsum |].
  rewrite Z.shiftr_div_pow2 by lia.
  split; [apply Z.div_pos; lia |].
  apply Z.div_lt_upper_bound; lia.
Qed.

(** X2. On a string of UTF-16 code units the hash is never negative: it
    lies between 0 and 2^31 - 1. *)
Theorem e_nonneg (s : jsstring) :
  Forall code_unit s -> 0 <= _e s <= INT32_MAX.
Proof.
  intros Hs. unfold _e, INT32_MAX.
  assert (H : 0 <= for_down (List.length s)
                     (fun i at_ => _e_body at_ (charCodeAt s i)) 0 < 2 ^ 31);
    [| lia].
  apply (for_down_inv (fun x => 0 <= x < 2 ^ 31)); [lia |].
  intros i x _. apply body_code_unit. unfold charCodeAt.
  destruct (nth_in_or_default i s 0) as [Hin | ->].
  - revert Hin. apply List.Forall_forall. exact Hs.
  - unfold code_unit. lia.
Qed.

Lemma e_nonneg_witness :
  0 <= _e (str "https://bot.n.cn") <= INT32_MAX.
Proof.
  apply (e_nonneg (str "https://bot.n.cn")).
  unfold code_unit. repeat constructor; discriminate.
Defined.

End HashMore.

(** ** The session identifier *)

Section SessionFacts.
Import JS Hash Session.
Local Open Scope Z_scope.

(** *** The suffix loop *)

(** X3. Started with a counter [k >= 0], the suffix loop ends after exactly
    [k] turns: [k] turns of fuel are enough and fewer are not.  It appends
    [String((k - j) ^ (at + j))] for [j = 0 .. k - 1] and leaves [at + k]. *)
Theorem suffix_loop_turns (k : nat) (nt : jsstring) (at_ : Z) :
  (forall fuel, (k <= fuel)%nat ->
     suffix_loop fuel nt at_ (Z.of_nat k)
     = Some (nt ++ concat
                     (List.map
                        (fun j => Number_toString
                                    (JS.xor (Z.of_nat (k - j))
                                            (at_ + Z.of_nat j)))
                        (seq 0 k)),
             at_ + Z.of_nat k))
  /\ (forall fuel, (fuel < k)%nat ->
        suffix_loop fuel nt at_ (Z.of_nat k) = None).
Proof.
  revert nt at_. induction k as [| k IH]; intros nt at_.
  - split; [| intros fuel H; lia].
    intros fuel _. destruct fuel; simpl; rewrite app_nil_r, Z.add_0_r;
      reflexivity.
  - destruct (IH (nt ++ Number_toString (JS.xor (Z.of_nat (S k)) at_))
                 (at_ + 1)) as [IH1 IH2].
    assert (E : Z.of_nat (S k) - 1 = Z.of_nat k) by lia.
    assert (N : (Z.of_nat (S k) =? 0) = false) by (apply Z.eqb_neq; lia).
    split.
    + intros fuel Hf. destruct fuel as [| fuel]; [lia |].
      cbn [suffix_loop]. rewrite N, E, IH1 by lia.
      f_equal. f_equal; [| lia].
      rewrite <- app_assoc. f_equal.
      cbn [seq List.map concat]. rewrite Z.add_0_r, Nat.sub_0_r.
      f_equal. rewrite <- seq_shift, map_map. f_equal.
      apply map_ext. intros j. cbn [Nat.sub]. do 2 f_equal. lia.
    + intros fuel Hf. destruct fuel as [| fuel].
      * cbn [suffix_loop]. rewrite N. reflexivity.
      * cbn [suffix_loop]. rewrite N, E. apply IH2. lia.
Qed.

(** *** The fingerprint *)

(** The hash of the descriptor with its suffix: a constant. *)
Lemma unique_word_eq (randomVal : Z) :
  unique_word randomVal = Some (JS.ushr (JS.xor randomVal 246075990) 0).
Proof.
  unfold unique_word.
  set (x := suffix_loop 1 _ _ 1). vm_compute in x. subst x. cbv beta iota.
  set (k := Hash._e _). vm_compute in k. subst k. reflexivity.
Qed.

Lemma unique_word_lxor r :
  0 <= r <= INT32_MAX ->
  unique_word r = Some (Z.lxor r 246075990)
  /\ 0 <= Z.lxor r 246075990 <= INT32_MAX.
Proof.
  unfold INT32_MAX. intros Hr.
  pose proof (lxor_bound 31 r 246075990 ltac:(lia) ltac:(lia) ltac:(lia)) as B.
  split; [| lia].
  rewrite unique_word_eq. f_equal. unfold JS.ushr, JS.xor.
  change (ToUint32 0 mod 32) with 0. rewrite Z.shiftr_0_r.
  rewrite (ToInt32_id r) by (unfold int32, two31; lia).
  change (ToInt32 246075990) with 246075990.
  rewrite ToInt32_id by (unfold int32, two31; lia).
  apply ToUint32_small. unfold two32. lia.
Qed.

(** Rounding to a double moves a number below 2^62 by 256 at most. *)
Lemma round_to_double_near x :
  0 <= x < 2 ^ 62 -> - 256 <= round_to_double x - x <= 256.
Proof.
  intros Hx. unfold round_to_double.
  destruct (Z.ltb_spec x (2 ^ 53)) as [Hs | Hb]; [lia |].
  assert (Hl : 53 <= Z.log2 x <= 61).
  { split; [apply Z.log2_le_pow2; lia |].
    assert (Z.log2 x < 62); [apply Z.log2_lt_pow2; lia | lia]. }
  set (e := Z.log2 x - 52). assert (He : 1 <= e <= 9) by (unfold e; lia).
  rewrite Z.shiftr_div_pow2, !Z.shiftl_mul_pow2 by lia.
  assert (Hp : 2 ^ e = 2 * 2 ^ (e - 1)).
  { replace e with (1 + (e - 1)) at 1 by lia.
    rewrite Z.pow_add_r by lia. reflexivity. }
  assert (Hh : 0 < 2 ^ (e - 1) <= 256).
  { split; [apply Z.pow_pos_nonneg; lia |].
    change 256 with (2 ^ 8). apply Z.pow_le_mono_r; lia. }
  pose proof (Z.div_mod x (2 ^ e) ltac:(lia)) as Hd.
  pose proof (Z.mod_pos_bound x (2 ^ e) ltac:(lia)) as Hm.
  set (q := x / 2 ^ e) in *. set (m := x mod 2 ^ e) in *.
  set (half := 2 ^ (e - 1)) in *.
  replace (x - q * 2 ^ e) with m by lia.
  destruct (Z.ltb_spec half m) as [H1 | H1]; cbn [orb].
  - lia.
  - destruct (Z.eqb_spec m half) as [H2 | H2]; cbn [andb]; [| lia].
    destruct (Z.odd q); lia.
Qed.

(** X4. For a draw between 0 and 2^31 - 1, [generateUniqueHash] returns a
    number; its 32-bit word is the draw XOR a constant and lies between 0
    and 2^31 - 1; the number is within 256 of the word times 2^31 - 1; and
    two different draws never give the same number. *)
Theorem generateUniqueHash_injective (r1 r2 : Z) :
  0 <= r1 <= INT32_MAX -> 0 <= r2 <= INT32_MAX ->
  exists h1 v1 h2 v2,
    unique_word r1 = Some h1 /\ generateUniqueHash r1 = Some v1
    /\ unique_word r2 = Some h2 /\ generateUniqueHash r2 = Some v2
    /\ h1 = Z.lxor r1 246075990 /\ 0 <= h1 <= INT32_MAX
    /\ - 256 <= v1 - h1 * INT32_MAX <= 256
    /\ (v1 = v2 -> r1 = r2).
Proof.
  intros H1 H2.
  destruct (unique_word_lxor r1 H1) as [E1 B1].
  destruct (unique_word_lxor r2 H2) as [E2 B2].
  unfold generateUniqueHash. rewrite E1, E2.
  set (h1 := Z.lxor r1 246075990) in *. set (h2 := Z.lxor r2 246075990) in *.
  exists h1, (round_to_double (h1 * INT32_MAX)),
         h2, (round_to_double (h2 * INT32_MAX)).
  unfold INT32_MAX in *.
  pose proof (round_to_double_near (h1 * 2147483647) ltac:(nia)) as N1.
  pose proof (round_to_double_near (h2 * 2147483647) ltac:(nia)) as N2.
  repeat split; try reflexivity; try lia.
  intros Ev.
  assert (Eh : h1 = h2) by lia.
  assert (R : forall r, Z.lxor (Z.lxor r 246075990) 246075990 = r).
  { intros r. rewrite Z.lxor_assoc, Z.lxor_nilpotent. apply Z.lxor_0_r. }
  rewrite <- (R r1), <- (R r2). fold h1 h2. rewrite Eh. reflexivity.
Qed.

Lemma generateUniqueHash_injective_witness :
  exists v1 v2,
    generateUniqueHash 5 = Some v1
    /\ generateUniqueHash 2147483647 = Some v2
    /\ v1 <> v2.
Proof.
  destruct (generateUniqueHash_injective 5 2147483647)
    as (h1 & v1 & h2 & v2 & _ & E1 & _ & E2 & _ & _ & _ & Hinj).
  - unfold INT32_MAX. lia.
  - unfold INT32_MAX. lia.
  - exists v1, v2. split; [exact E1 |]. split; [exact E2 |].
    intros E. apply Hinj in E. discriminate E.
Defined.

(** *** [generateMid] *)

Lemma domain_hash_digits : Number_toString (Hash._e domain) = str "124812755".
Proof. vm_compute. reflexivity. Qed.

Lemma replace_char_length p c (s : jsstring) :
  List.length (replace_char p [c] s) = List.length s.
Proof.
  induction s as [| d s IH]; [reflexivity |].
  simpl. destruct (d =? p); simpl; [reflexivity | f_equal; exact IH].
Qed.

(** A prefix without the pattern is left alone. *)
Lemma replace_char_app p r (a b : jsstring) :
  Forall (fun c => c <> p) a ->
  replace_char p r (a ++ b) = a ++ replace_char p r b.
Proof.
  induction a as [| c a IH]; intros H; [reflexivity |].
  inversion H as [| ? ? Hc Ha]; subst. simpl.
  destruct (Z.eqb_spec c p); [contradiction |].
  rewrite IH by exact Ha. reflexivity.
Qed.

Lemma generateMid_eq (u t : jsstring) :
  generateMid u t
  = firstn 32 (str "124812755" ++ replace_char 46 (str "e") (u ++ t)).
Proof.
  unfold generateMid. rewrite domain_hash_digits.
  rewrite replace_char_app; [reflexivity |].
  repeat constructor; discriminate.
Qed.

(** X5. Whatever the two printed numbers are, the identifier has
    [min(32, 9 + their lengths)] characters, so 32 at most, and it begins
    with the nine digits of the hash of the domain, 124812755. *)
Theorem generateMid_length (u t : jsstring) :
  List.length (generateMid u t)
  = Nat.min 32 (9 + List.length u + List.length t)
  /\ (List.length (generateMid u t) <= 32)%nat
  /\ firstn 9 (generateMid u t) = str "124812755".
Proof.
  rewrite generateMid_eq.
  assert (L : List.length
                (str "124812755" ++ replace_char 46 (str "e") (u ++ t))
              = (9 + List.length u + List.length t)%nat).
  { rewrite length_app. change (str "e") with [101].
    rewrite replace_char_length, length_app. simpl. lia. }
  split; [| split].
  - rewrite length_firstn, L. reflexivity.
  - rewrite length_firstn. lia.
  - reflexivity.
Qed.

(** Replacing the only dot of a string of digits leaves digits and one
    [e]. *)
Lemma replace_dot_digits (s : jsstring) :
  Forall (fun c => is_digit c || is_dot c = true) s ->
  (count_occ Z.eq_dec s 46%Z <= 1)%nat ->
  Forall (fun c => is_digit c || is_e c = true)
    (replace_char 46 (str "e") s).
Proof.
  induction s as [| c s IH]; intros Hs Hc; [constructor |].
  inversion Hs as [| ? ? Hd Hs']; subst. simpl replace_char.
  destruct (Z.eqb_spec c 46) as [-> | Hne].
  - simpl in Hc. constructor; [reflexivity |].
    assert (H0 : count_occ Z.eq_dec s 46 = 0%nat) by lia.
    apply List.Forall_forall. intros d Hin.
    assert (Hd' : is_digit d || is_dot d = true)
      by (revert d Hin; apply List.Forall_forall; exact Hs').
    destruct (is_digit d); [reflexivity |]. simpl in Hd'.
    unfold is_dot in Hd'. apply Z.eqb_eq in Hd'. subst d.
    exfalso. apply (count_occ_not_In Z.eq_dec) in H0. contradiction.
  - constructor.
    + unfold is_dot in Hd. destruct (Z.eqb_spec c 46); [contradiction |].
      rewrite orb_false_r in Hd. rewrite Hd. reflexivity.
    + apply IH; [exact Hs' |].
      rewrite count_occ_cons_neq in Hc by exact Hne. exact Hc.
Qed.

(** X6. When the two printed numbers are made of digits with one dot at
    most between them, the identifier is made of digits and of the letter
    [e] only: the dot is gone. *)
Theorem generateMid_alphabet (u t : jsstring) :
  Forall (fun c => is_digit c || is_dot c = true) (u ++ t) ->
  (count_occ Z.eq_dec (u ++ t) 46%Z <= 1)%nat ->
  Forall (fun c => is_digit c || is_e c = true) (generateMid u t).
Proof.
  intros Hs Hc. rewrite generateMid_eq.
  apply Forall_take, Forall_app. split.
  - repeat constructor.
  - apply replace_dot_digits; assumption.
Qed.

Lemma generateMid_alphabet_witness :
  Forall (fun c => is_digit c || is_e c = true)
    (generateMid (str "4611686014132420609") (str "1730620800000.8457")).
Proof.
  apply generateMid_alphabet.
  - repeat constructor.
  - vm_compute. lia.
Defined.

End SessionFacts.

(** ** The requests of [getAudioChunks] *)

Section FlightFacts.
Import Chunks Flight.

Variable texts : list jsstring.
Variable fetch : nat -> outcome.
Variable encodeURIComponent : jsstring -> option jsstring.

Lemma launches_app t1 t2 : launches (t1 ++ t2) = launches t1 ++ launches t2.
Proof. apply flat_map_app. Qed.

Lemma launches_launches l : launches (List.map Launch l) = l.
Proof. induction l as [| i l IH]; [reflexivity | simpl; f_equal; exact IH]. Qed.

Lemma launches_settles l : launches (List.map Settle l) = [].
Proof. induction l as [| i l IH]; [reflexivity | exact IH]. Qed.

Lemma launches_yields l : launches (flat_map (yield_of fetch) l) = [].
Proof.
  induction l as [| i l IH]; [reflexivity |].
  simpl. rewrite launches_app, IH. unfold yield_of.
  destruct (succeeded (fetch i)); reflexivity.
Qed.

Lemma launches_batch n c sched bs :
  launches (batch_events fetch n c sched bs) = batch_indices n c bs.
Proof.
  unfold batch_events.
  rewrite !launches_app, launches_launches, launches_settles, launches_yields.
  rewrite !app_nil_r. reflexivity.
Qed.

Lemma settled_in_batch n c sched bs :
  settled_in (batch_events fetch n c sched bs) = sched bs.
Proof.
  unfold batch_events.
  rewrite !settled_in_app, settled_in_launches, settled_in_settles,
    (settled_in_yields fetch).
  rewrite app_nil_r. reflexivity.
Qed.

Lemma launches_serial_one i : launches (serial_one fetch i) = [i].
Proof.
  unfold serial_one. rewrite !launches_app. simpl.
  destruct (fetch i) as [| | cs ok]; try reflexivity.
  induction cs as [| c cs IH]; [reflexivity | exact IH].
Qed.

Lemma settled_in_serial_one i : settled_in (serial_one fetch i) = [i].
Proof.
  unfold serial_one. rewrite !settled_in_app. simpl.
  destruct (fetch i) as [| | cs ok]; try reflexivity.
  induction cs as [| c cs IH]; [reflexivity | exact IH].
Qed.

(** *** In flight *)

(** Inside one batch every launch comes first: the batch alone keeps at
    most its own size in flight. *)
Lemma window_batch n c sched bs :
  sched bs ≡ₚ batch_indices n c bs ->
  window c (batch_events fetch n c sched bs).
Proof.
  intros Hperm pre post E.
  assert (Hlen : length (sched bs) = length (batch_indices n c bs))
    by (apply Permutation_length, Hperm).
  assert (Hc : length (batch_indices n c bs) <= c)
    by (unfold batch_indices; rewrite length_seq; lia).
  pose proof (launches_batch n c sched bs) as HL.
  pose proof (settled_in_batch n c sched bs) as HS.
  rewrite E, launches_app in HL. rewrite E, settled_in_app in HS.
  apply (f_equal (@length nat)) in HL, HS. rewrite length_app in HL, HS.
  split; [| lia].
  unfold batch_events in E. fold (batch_indices n c bs) in E.
  apply app_eq_app in E as [m [[E1 E2] | [E1 E2]]].
  - apply (f_equal settled_in) in E1.
    rewrite settled_in_launches, settled_in_app in E1.
    symmetry in E1. apply app_eq_nil in E1 as [-> _]. simpl. lia.
  - subst pre.
    rewrite settled_in_app, settled_in_launches in HS.
    rewrite settled_in_app, settled_in_launches, launches_app,
      launches_launches, !length_app.
    cbn [app length] in *. lia.
Qed.

Lemma window_app c t1 t2 :
  length (launches t1) = length (settled_in t1) ->
  window c t1 -> window c t2 ->
  window c (t1 ++ t2).
Proof.
  intros Hbal H1 H2 pre post E.
  apply app_eq_app in E as [m [[E1 E2] | [E1 E2]]].
  - exact (H1 pre m E1).
  - subst pre. destruct (H2 m post E2) as [Ha Hb].
    rewrite launches_app, settled_in_app, !length_app. lia.
Qed.

Lemma window_weaken c c' trace :
  c <= c' -> window c trace -> window c' trace.
Proof.
  intros Hc H pre post E. destruct (H pre post E) as [Ha Hb]. lia.
Qed.

(** *** Started before settled *)

Lemma launched_first_nil : launched_first [].
Proof.
  intros pre post E i Hi. symmetry in E. apply app_eq_nil in E as [-> _].
  destruct Hi.
Qed.

Lemma launched_first_app t1 t2 :
  launched_first t1 -> launched_first t2 -> launched_first (t1 ++ t2).
Proof.
  intros H1 H2 pre post E i Hi.
  apply app_eq_app in E as [m [[E1 E2] | [E1 E2]]].
  - exact (H1 pre m E1 i Hi).
  - subst pre. rewrite settled_in_app in Hi. rewrite launches_app.
    apply in_app_iff. apply in_app_iff in Hi as [Hi | Hi].
    + left. apply (H1 t1 []); [symmetry; apply app_nil_r | exact Hi].
    + right. exact (H2 m post E2 i Hi).
Qed.

(** In a batch every task is started before any task settles, and only
    tasks of the batch settle. *)
Lemma launched_first_batch n c sched bs :
  sched bs ≡ₚ batch_indices n c bs ->
  launched_first (batch_events fetch n c sched bs).
Proof.
  intros Hperm pre post E i Hi.
  unfold batch_events in E. fold (batch_indices n c bs) in E.
  apply app_eq_app in E as [m [[E1 E2] | [E1 E2]]].
  - apply (f_equal settled_in) in E1.
    rewrite settled_in_launches, settled_in_app in E1.
    symmetry in E1. apply app_eq_nil in E1 as [E1 _].
    rewrite E1 in Hi. destruct Hi.
  - subst pre. rewrite launches_app, launches_launches.
    apply in_app_iff. left.
    rewrite settled_in_app, settled_in_launches in Hi. cbn [app] in Hi.
    apply (f_equal settled_in) in E2.
    rewrite !settled_in_app, settled_in_settles, (settled_in_yields fetch),
      app_nil_r in E2.
    apply (Permutation_in i Hperm). rewrite E2.
    apply in_app_iff. left. exact Hi.
Qed.

Lemma launched_first_serial_one i : launched_first (serial_one fetch i).
Proof.
  intros pre post E j Hj.
  assert (Hi : In j (settled_in (serial_one fetch i))).
  { rewrite E, settled_in_app. apply in_app_iff. left. exact Hj. }
  rewrite settled_in_serial_one in Hi. destruct Hi as [<- | []].
  destruct pre as [| e pre]; [destruct Hj |].
  unfold serial_one in E. cbn [app] in E. injection E as <- _.
  left. reflexivity.
Qed.

Lemma launched_first_serial (l : list nat) :
  launched_first (flat_map (serial_one fetch) l).
Proof.
  induction l as [| i l IH]; [apply launched_first_nil |].
  cbn [flat_map]. apply launched_first_app;
    [apply launched_first_serial_one | exact IH].
Qed.

(** *** From counting to the tasks in flight *)

Lemma in_flight_count pre :
  List.NoDup (launches pre) -> List.NoDup (settled_in pre) ->
  (forall i, In i (settled_in pre) -> In i (launches pre)) ->
  length (in_flight pre) + length (settled_in pre) = length (launches pre).
Proof.
  intros HL HS Hin. unfold in_flight.
  pose proof (List.filter_length
                (fun i => bool_decide (i ∈ settled_in pre)) (launches pre))
    as Hf.
  assert (Hp : List.filter (fun i => bool_decide (i ∈ settled_in pre))
                 (launches pre) ≡ₚ settled_in pre).
  { apply Permutation.NoDup_Permutation;
      [apply List.NoDup_filter, HL | exact HS |].
    intros x. rewrite filter_In, bool_decide_eq_true, list_elem_of_In.
    split; [intros [_ H]; exact H | intros H; split; [apply Hin |]; exact H]. }
  apply Permutation_length in Hp. lia.
Qed.

Lemma in_flight_of_window c trace :
  List.NoDup (launches trace) -> List.NoDup (settled_in trace) ->
  launched_first trace -> window c trace -> in_flight_at_most c trace.
Proof.
  intros HL HS HO HW pre post E.
  split; [exact (HO pre post E) |].
  destruct (HW pre post E) as [_ Hb].
  rewrite E, launches_app in HL. rewrite E, settled_in_app in HS.
  apply NoDup_app_remove_r in HL, HS.
  pose proof (in_flight_count pre HL HS (HO pre post E)). lia.
Qed.


(** What holds of the requests between two batches. *)
Lemma requests_step sched c bs trace :
  1 <= c -> bs < length texts ->
  sched bs ≡ₚ batch_indices (length texts) c bs ->
  (launches trace = seq 0 (Nat.min bs (length texts))
   /\ settled_in trace ≡ₚ seq 0 (Nat.min bs (length texts))
   /\ window c trace
   /\ launched_first trace) ->
  launches (trace ++ batch_events fetch (length texts) c sched bs)
  = seq 0 (Nat.min (bs + c) (length texts))
  /\ settled_in (trace ++ batch_events fetch (length texts) c sched bs)
     ≡ₚ seq 0 (Nat.min (bs + c) (length texts))
  /\ window c
       (trace ++ batch_events fetch (length texts) c sched bs)
  /\ launched_first
       (trace ++ batch_events fetch (length texts) c sched bs).
Proof.
  intros Hc Hbs Hperm (HL & HS & HF & HO).
  replace (Nat.min bs (length texts)) with bs in * by lia.
  assert (Eseq : seq 0 (Nat.min (bs + c) (length texts))
                 = seq 0 bs ++ batch_indices (length texts) c bs).
  { unfold batch_indices.
    change (seq bs (Nat.min (bs + c) (length texts) - bs))
      with (seq (0 + bs) (Nat.min (bs + c) (length texts) - bs)).
    rewrite <- seq_app. f_equal. lia. }
  rewrite Eseq. split; [| split; [| split]].
  - rewrite launches_app, HL, launches_batch. reflexivity.
  - rewrite settled_in_app, settled_in_batch.
    apply Permutation_app; assumption.
  - apply window_app; [| exact HF | apply window_batch, Hperm].
    rewrite HL. apply Permutation_length, Permutation_sym, HS.
  - apply launched_first_app; [exact HO |].
    apply launched_first_batch, Hperm.
Qed.

Lemma window_serial (l : list nat) :
  window 1 (flat_map (serial_one fetch) l)
  /\ launches (flat_map (serial_one fetch) l) = l
  /\ settled_in (flat_map (serial_one fetch) l) = l.
Proof.
  induction l as [| i l (IH1 & IH2 & IH3)].
  - split; [| split; reflexivity].
    intros pre post E. symmetry in E. apply app_eq_nil in E as [-> _].
    simpl. lia.
  - cbn [flat_map].
    rewrite launches_app, settled_in_app, launches_serial_one,
      settled_in_serial_one, IH2, IH3.
    split; [| split; reflexivity].
    apply window_app; [| | exact IH1].
    + rewrite launches_serial_one, settled_in_serial_one. reflexivity.
    + intros pre post E.
      pose proof (launches_serial_one i) as HL.
      pose proof (settled_in_serial_one i) as HS.
      rewrite E in HL, HS.
      rewrite launches_app in HL. rewrite settled_in_app in HS.
      apply (f_equal (@length nat)) in HL, HS.
      rewrite length_app in HL, HS. cbn [length] in HL, HS.
      split; [| lia].
      unfold serial_one in E. cbn [app] in E.
      destruct pre as [| e pre]; [simpl; lia |].
      injection E as <- _. cbn [launches flat_map app length]. lia.
Qed.

(** Every run ends, starts the task of every segment once and in index
    order, and keeps the tasks in flight within bounds. *)
Lemma requests_run sched (concurrency : Z) :
  (concurrency <= 1)%Z \/ length texts <= 2
  \/ valid_sched (length texts) (Z.to_nat concurrency) sched ->
  exists trace,
    getAudioChunks texts fetch sched concurrency = Some trace
    /\ launches trace = seq 0 (length texts)
    /\ in_flight_at_most
         (if (concurrency <=? 1)%Z || (length texts <=? 2) then 1
          else Z.to_nat concurrency) trace.
Proof.
  intros Hmode.
  assert (Hrun : exists trace,
             getAudioChunks texts fetch sched concurrency = Some trace
             /\ launches trace = seq 0 (length texts)
             /\ settled_in trace ≡ₚ seq 0 (length texts)
             /\ window
                  (if (concurrency <=? 1)%Z || (length texts <=? 2) then 1
                   else Z.to_nat concurrency) trace
             /\ launched_first trace).
  { unfold getAudioChunks.
    destruct ((concurrency <=? 1)%Z || (length texts <=? 2)) eqn:Em.
    - exists (getAudioChunksSerial texts fetch). split; [reflexivity |].
      unfold getAudioChunksSerial.
      destruct (window_serial (seq 0 (length texts))) as (H1 & H2 & H3).
      split; [exact H2 |]. split; [rewrite H3; reflexivity |].
      split; [exact H1 | apply launched_first_serial].
    - apply orb_false_iff in Em as [Ec En].
      apply Z.leb_gt in Ec. apply Nat.leb_gt in En.
      destruct Hmode as [H | [H | Hs]]; [lia | lia |].
      assert (Hc' : 1 <= Z.to_nat concurrency) by lia.
      destruct (batches_inv texts fetch
                  (fun bs trace =>
                     launches trace = seq 0 (Nat.min bs (length texts))
                     /\ settled_in trace ≡ₚ seq 0 (Nat.min bs (length texts))
                     /\ window (Z.to_nat concurrency) trace
                     /\ launched_first trace)
                  sched (Z.to_nat concurrency) Hc' Hs
                  (fun bs trace =>
                     requests_step sched (Z.to_nat concurrency) bs trace Hc')
                  (length texts) 0 (replicate (length texts) None) [])
        as (trace & bs' & E & Hbs' & HL & HS & HF & HO).
      + exists 0. reflexivity.
      + split; [apply length_replicate |].
        intros j Hj. apply lookup_replicate_2. lia.
      + lia.
      + split; [reflexivity |]. split; [reflexivity |].
        split; [| apply launched_first_nil].
        intros pre post E. symmetry in E. apply app_eq_nil in E as [-> _].
        simpl. lia.
      + replace (Nat.min bs' (length texts)) with (length texts) in * by lia.
        exists trace. split; [exact E |]. split; [exact HL |].
        split; [exact HS |]. split; [exact HF | exact HO]. }
  destruct Hrun as (trace & E & HL & HS & HW & HO).
  exists trace. split; [exact E |]. split; [exact HL |].
  apply in_flight_of_window; [| | exact HO | exact HW].
  - rewrite HL. apply List.seq_NoDup.
  - apply (Permutation.Permutation_NoDup (Permutation_sym HS)), List.seq_NoDup.
Qed.


(** X8. At every point of a run, a task that has settled was started
    before, and the tasks in flight (started and not yet settled), so also
    the requests in flight, are at most [concurrency] in batched mode and
    at most one in serial mode. *)
Theorem in_flight_bounded sched (concurrency : Z) :
  (concurrency <= 1)%Z \/ length texts <= 2
  \/ valid_sched (length texts) (Z.to_nat concurrency) sched ->
  exists trace,
    getAudioChunks texts fetch sched concurrency = Some trace
    /\ in_flight_at_most
         (if (concurrency <=? 1)%Z || (length texts <=? 2) then 1
          else Z.to_nat concurrency) trace.
Proof.
  intros Hmode.
  destruct (requests_run sched concurrency Hmode) as (trace & E & _ & HF).
  exists trace. split; [exact E | exact HF].
Qed.

(** *** The bytes *)

Lemma audio_successes (l : list nat) :
  (forall i cs, In i l -> fetch i <> Body cs false) ->
  concat
    (List.map snd
       (flat_map (fun i => match succeeded (fetch i) with
                           | Some b => [(i, b)]
                           | None => []
                           end) l))
  = concat (flat_map (fun i => delivered (fetch i)) l).
Proof.
  induction l as [| i l IH]; intros H; [reflexivity |].
  cbn [flat_map]. rewrite map_app, !concat_app.
  rewrite IH by (intros j cs Hj; apply H; right; exact Hj).
  f_equal. pose proof (H i) as Hi. unfold succeeded, delivered.
  destruct (fetch i) as [| | cs [|]]; try reflexivity.
  - simpl. rewrite app_nil_r. apply merge_concat.
  - exfalso. apply (Hi cs); [left |]; reflexivity.
Qed.

Lemma audio_serial (l : list nat) :
  concat
    (List.map snd
       (flat_map (fun i => List.map (pair i) (delivered (fetch i))) l))
  = concat (flat_map (fun i => delivered (fetch i)) l).
Proof.
  induction l as [| i l IH]; [reflexivity |].
  cbn [flat_map]. rewrite map_app, !concat_app, IH. f_equal. f_equal.
  rewrite map_map. apply map_id.
Qed.

Lemma audio_run sched (concurrency : Z) :
  (forall i cs, i < length texts -> fetch i <> Body cs false) ->
  (concurrency <= 1)%Z \/ length texts <= 2
  \/ valid_sched (length texts) (Z.to_nat concurrency) sched ->
  exists trace,
    getAudioChunks texts fetch sched concurrency = Some trace
    /\ audio trace
       = concat (flat_map (fun i => delivered (fetch i))
                   (seq 0 (length texts))).
Proof.
  intros Hok Hmode. unfold audio.
  destruct (Z.leb_spec concurrency 1) as [Hc | Hc].
  { exists (getAudioChunksSerial texts fetch).
    split; [apply serial_run; left; exact Hc |].
    rewrite emitted_serial. apply audio_serial. }
  destruct (Nat.leb_spec (length texts) 2) as [Hn | Hn].
  { exists (getAudioChunksSerial texts fetch).
    split; [apply serial_run; right; exact Hn |].
    rewrite emitted_serial. apply audio_serial. }
  destruct Hmode as [H | [H | Hs]]; [lia | lia |].
  destruct (batched_run texts fetch sched concurrency Hc Hn Hs)
    as (trace & E & Hem & _).
  exists trace. split; [exact E |]. rewrite Hem. unfold successes.
  apply audio_successes. intros i cs Hi. apply Hok.
  apply in_seq in Hi. lia.
Qed.

(** X9. When no body breaks while it is read (every request is refused,
    comes without body, or is read to its end), the bytes handed out, end to
    end, are the bodies of the segments in index order, whatever the
    concurrency and the completion order: the mode changes how the bytes
    are cut into buffers, not the bytes. *)
Theorem audio_mode_independent sched (concurrency : Z) :
  (forall i cs, i < length texts -> fetch i <> Body cs false) ->
  (concurrency <= 1)%Z \/ length texts <= 2
  \/ valid_sched (length texts) (Z.to_nat concurrency) sched ->
  exists trace,
    getAudioChunks texts fetch sched concurrency = Some trace
    /\ audio trace
       = concat (flat_map (fun i => delivered (fetch i))
                   (seq 0 (length texts))).
Proof. apply audio_run. Qed.

End FlightFacts.

Section FlightRuns.
Import Chunks Flight.


Lemma in_flight_bounded_witness :
  exists trace,
    getAudioChunks (replicate 5 (str "text."))
      (fun i => Body [replicate (S i) Byte.x01] true)
      (fun bs => rev (batch_indices 5 2 bs)) 2
    = Some trace
    /\ in_flight_at_most 2 trace.
Proof.
  destruct (in_flight_bounded (replicate 5 (str "text."))
              (fun i => Body [replicate (S i) Byte.x01] true)
              (fun bs => rev (batch_indices 5 2 bs)) 2)
    as (trace & E & HF).
  - right. right. intros k _. apply Permutation_sym, Permutation_rev.
  - exists trace. split; [exact E | exact HF].
Defined.

Lemma audio_mode_independent_witness :
  exists trace,
    getAudioChunks (replicate 4 (str "text."))
      (fun i => match i with
                | 1 => NoBody
                | _ => Body [[Byte.x01]; [Byte.x02]] true
                end)
      (fun bs => rev (batch_indices 4 3 bs)) 3
    = Some trace
    /\ audio trace
       = [Byte.x01; Byte.x02; Byte.x01; Byte.x02; Byte.x01; Byte.x02].
Proof.
  destruct (audio_mode_independent (replicate 4 (str "text."))
              (fun i => match i with
                        | 1 => NoBody
                        | _ => Body [[Byte.x01]; [Byte.x02]] true
                        end)
              (fun bs => rev (batch_indices 4 3 bs)) 3)
    as (trace & E & HA).
  - intros i cs _. destruct i as [| [| i]]; discriminate.
  - right. right. intros k _. apply Permutation_sym, Permutation_rev.
  - exists trace. split; [exact E | exact HA].
Defined.

End FlightRuns.

(** ** The voice catalog *)

Section VoicesFacts.
Import Voices.

Variable num : Type.
Variable num_truthy : num -> bool.
Variable proto_is_plain : bool.

Lemma fall_back_lookup (voices : gmap jsstring (VoiceInfo num)) tag :
  fall_back num voices !! tag
  = if decide (tag = DeepSeek) then Some (fallback_voice num)
    else voices !! tag.
Proof.
  unfold fall_back. rewrite lookup_insert.
  destruct (decide (DeepSeek = tag)), (decide (tag = DeepSeek));
    congruence.
Qed.

Lemma fall_back_nonempty (voices : gmap jsstring (VoiceInfo num)) :
  fall_back num voices <> ∅.
Proof. apply insert_non_empty. Qed.

(** The checks of the shape pass exactly on a well-shaped reply. *)
Lemma shape_cases (voices : gmap jsstring (VoiceInfo num)) data :
  (exists list,
      well_shaped num data list
      /\ loadVoices num num_truthy proto_is_plain voices (Parsed num data)
         = if size (fold_left (add_voice num num_truthy proto_is_plain)
                      list ∅) =? 0
           then fall_back num
                  (fold_left (add_voice num num_truthy proto_is_plain) list ∅)
           else fold_left (add_voice num num_truthy proto_is_plain) list ∅)
  \/ ((forall list, ~ well_shaped num data list)
      /\ loadVoices num num_truthy proto_is_plain voices (Parsed num data)
         = fall_back num voices).
Proof.
  unfold loadVoices.
  destruct data as [| | b | x | s | items | fields];
    try (right; split;
         [intros list (f & f' & E & _); discriminate E
         | cbn; rewrite ?orb_true_r; destruct_and?; try reflexivity;
           repeat (case_match; try reflexivity)]).
  cbn [truthy is_object negb orb get].
  destruct (assoc num (str "data") fields) as [d |] eqn:Ed.
  2:{ right. split; [| reflexivity].
      intros list (f & f' & E & E1 & _). injection E as <-. congruence. }
  destruct d as [| | b | x | s | items | fields'];
    try (right; split;
         [intros list (f & f' & E & E1 & _); injection E as <-; congruence
         | cbn; rewrite ?orb_true_r; try reflexivity;
           repeat (case_match; try reflexivity)]).
  cbn [truthy negb orb get].
  destruct (assoc num (str "list") fields') as [l |] eqn:El.
  2:{ right. split; [| reflexivity].
      intros list (f & f' & E & E1 & E2). injection E as <-.
      rewrite Ed in E1. injection E1 as <-. congruence. }
  destruct l as [| | b | x | s | items | fields''];
    try (right; split;
         [intros list (f & f' & E & E1 & E2); injection E as <-;
          rewrite Ed in E1; injection E1 as <-; congruence
         | reflexivity]).
  left. exists items. split; [| reflexivity].
  exists fields, fields'. repeat split; assumption.
Qed.

(** X10. After [loadVoices] the catalog is never empty, whatever the
    catalog before and whatever the upstream answers. *)
Theorem loadVoices_never_empty (voices : gmap jsstring (VoiceInfo num))
    (reply : catalog_reply num) :
  loadVoices num num_truthy proto_is_plain voices reply <> ∅
  /\ 1 <= size (loadVoices num num_truthy proto_is_plain voices reply).
Proof.
  assert (H : loadVoices num num_truthy proto_is_plain voices reply <> ∅).
  { destruct reply as [| | | data]; try apply fall_back_nonempty.
    destruct (shape_cases voices data) as [(list & _ & ->) | [_ ->]];
      [| apply fall_back_nonempty].
    destruct (Nat.eqb_spec (size (fold_left
                (add_voice num num_truthy proto_is_plain) list ∅)) 0)
      as [E | E]; [apply fall_back_nonempty |].
    intros E0. apply E. rewrite E0. apply map_size_empty. }
  split; [exact H |].
  destruct (size _) eqn:E; [| lia].
  apply map_size_empty_iff in E. contradiction.
Qed.

(** X11. When the request fails, the status is not OK, the body is not
    JSON or has not the shape asked for, the catalog is not cleared: every
    voice known before the call is still there, and [DeepSeek] holds the
    fallback entry. *)
Theorem loadVoices_failure_keeps (voices : gmap jsstring (VoiceInfo num))
    (reply : catalog_reply num) :
  (forall data list, reply = Parsed num data -> ~ well_shaped num data list) ->
  forall tag,
    loadVoices num num_truthy proto_is_plain voices reply !! tag
    = if decide (tag = DeepSeek) then Some (fallback_voice num)
      else voices !! tag.
Proof.
  intros Hbad tag.
  destruct reply as [| | | data]; try apply fall_back_lookup.
  destruct (shape_cases voices data) as [(list & Hw & _) | [_ ->]].
  - exfalso. exact (Hbad data list eq_refl Hw).
  - apply fall_back_lookup.
Qed.

(** *** A reply that parses *)

Lemma add_voice_lookup_other voices item tag :
  (forall info, ~ stores num num_truthy proto_is_plain item tag info) ->
  add_voice num num_truthy proto_is_plain voices item !! tag = voices !! tag.
Proof.
  intros H. unfold add_voice.
  destruct (voice_of num num_truthy item) as [[t info] |] eqn:E;
    [| reflexivity].
  assert (Hne : t = tag -> t = str "__proto__" /\ proto_is_plain = false).
  { intros ->. destruct (decide (tag = str "__proto__")) as [Hp | Hp].
    - split; [exact Hp |]. destruct proto_is_plain eqn:Ep; [| reflexivity].
      exfalso. apply (H info). split; [exact E | intros _; reflexivity].
    - exfalso. apply (H info). split; [exact E | intros Hp'; contradiction]. }
  destruct (decide (t = str "__proto__")) as [Hp | Hp].
  - destruct proto_is_plain eqn:Ep; [| reflexivity].
    apply lookup_insert_ne. intros Et. destruct (Hne Et) as [_ Hf].
    discriminate Hf.
  - apply lookup_insert_ne. intros Et. destruct (Hne Et) as [Hp' _].
    contradiction.
Qed.

Lemma add_voice_lookup_stored voices item tag info :
  stores num num_truthy proto_is_plain item tag info ->
  add_voice num num_truthy proto_is_plain voices item !! tag = Some info.
Proof.
  intros [E Hp]. unfold add_voice. rewrite E.
  destruct (decide (tag = str "__proto__")) as [Ht | Ht].
  - rewrite (Hp Ht). apply lookup_insert_eq.
  - apply lookup_insert_eq.
Qed.

Lemma stores_dec item tag :
  (exists info, stores num num_truthy proto_is_plain item tag info)
  \/ (forall info, ~ stores num num_truthy proto_is_plain item tag info).
Proof.
  unfold stores.
  destruct (voice_of num num_truthy item) as [[t info] |] eqn:E.
  - destruct (decide (t = tag)) as [-> | Hne].
    + destruct (decide (tag = str "__proto__")) as [Hp | Hp].
      * destruct proto_is_plain eqn:Ep.
        -- left. exists info. split; [reflexivity | intros _; reflexivity].
        -- right. intros info' [_ H]. specialize (H Hp). discriminate H.
      * left. exists info. split; [reflexivity | intros H; contradiction].
    + right. intros info' [H _]. congruence.
  - right. intros info' [H _]. discriminate H.
Qed.

Lemma fold_add_voice_lookup list voices tag :
  (fold_left (add_voice num num_truthy proto_is_plain) list voices !! tag
   = voices !! tag
   /\ forall x info, In x list ->
        ~ stores num num_truthy proto_is_plain x tag info)
  \/ exists l1 item l2 info,
       list = l1 ++ item :: l2
       /\ stores num num_truthy proto_is_plain item tag info
       /\ (forall x info', In x l2 ->
             ~ stores num num_truthy proto_is_plain x tag info')
       /\ fold_left (add_voice num num_truthy proto_is_plain) list voices
            !! tag = Some info.
Proof.
  revert voices. induction list as [| item list IH]; intros voices.
  - left. split; [reflexivity | intros x info []].
  - cbn [fold_left].
    destruct (IH (add_voice num num_truthy proto_is_plain voices item))
      as [[E Hnone] | (l1 & it & l2 & info & -> & Hst & Hl2 & E)].
    + destruct (stores_dec item tag) as [[info Hst] | Hno].
      * right. exists [], item, list, info.
        split; [reflexivity |]. split; [exact Hst |]. split; [exact Hnone |].
        rewrite E. apply add_voice_lookup_stored, Hst.
      * left. split.
        -- rewrite E. apply add_voice_lookup_other, Hno.
        -- intros x info [<- | Hin]; [apply Hno | apply Hnone, Hin].
    + right. exists (item :: l1), it, l2, info.
      split; [reflexivity |]. split; [exact Hst |]. split; [exact Hl2 |].
      exact E.
Qed.

(** X12. On a well-shaped reply in which some item is stored, the new
    catalog is read off the list alone: a tag is in it exactly when some
    item of the list is stored under it, its entry is the one of the last
    such item, and nothing of the catalog before the call is left. *)
Theorem loadVoices_success (voices : gmap jsstring (VoiceInfo num))
    (data : jsval num) (list : list (jsval num))
    (item0 : jsval num) (tag0 : jsstring) (info0 : VoiceInfo num) :
  well_shaped num data list ->
  In item0 list ->
  stores num num_truthy proto_is_plain item0 tag0 info0 ->
  (forall l1 item l2 tag info,
      list = l1 ++ item :: l2 ->
      stores num num_truthy proto_is_plain item tag info ->
      (forall x info', In x l2 ->
         ~ stores num num_truthy proto_is_plain x tag info') ->
      loadVoices num num_truthy proto_is_plain voices (Parsed num data) !! tag
      = Some info)
  /\ (forall tag info,
        loadVoices num num_truthy proto_is_plain voices (Parsed num data)
          !! tag = Some info ->
        exists item, In item list
                     /\ stores num num_truthy proto_is_plain item tag info).
Proof.
  intros Hw Hin0 Hst0.
  destruct (shape_cases voices data) as [(list' & Hw' & ->) | [Hbad _]];
    [| exfalso; exact (Hbad list Hw)].
  assert (list' = list) as ->.
  { destruct Hw as (f & f' & E & E1 & E2), Hw' as (g & g' & G & G1 & G2).
    rewrite E in G. injection G as <-. rewrite E1 in G1. injection G1 as <-.
    rewrite E2 in G2. injection G2 as <-. reflexivity. }
  assert (Hne : (size (fold_left (add_voice num num_truthy proto_is_plain)
                         list ∅) =? 0) = false).
  { apply Nat.eqb_neq. intros E0. apply map_size_empty_iff in E0.
    destruct (fold_add_voice_lookup list ∅ tag0)
      as [[_ Hnone] | (l1 & it & l2 & info & _ & _ & _ & E)].
    - exact (Hnone item0 info0 Hin0 Hst0).
    - rewrite E0, lookup_empty in E. discriminate E. }
  rewrite Hne. split.
  - intros l1 item l2 tag info El Hst Hl2.
    destruct (fold_add_voice_lookup list ∅ tag)
      as [[_ Hnone] | (k1 & it & k2 & info' & Ek & Hst' & Hk2 & E)].
    + exfalso. apply (Hnone item info); [| exact Hst].
      rewrite El. apply in_app_iff. right. left. reflexivity.
    + rewrite E. f_equal.
      (* the last item stored under [tag] is the same in both splits *)
      rewrite El in Ek.
      apply app_eq_app in Ek as [m [[E1 E2] | [E1 E2]]].
      * destruct m as [| y m]; simpl in E2.
        -- injection E2 as Ei _. subst it.
           destruct Hst as [Hv _], Hst' as [Hv' _]. congruence.
        -- injection E2 as _ E2. exfalso.
           apply (Hk2 item info); [| exact Hst].
           rewrite E2. apply in_app_iff. right. left. reflexivity.
      * destruct m as [| y m]; simpl in E2.
        -- injection E2 as Ei _. subst it.
           destruct Hst as [Hv _], Hst' as [Hv' _]. congruence.
        -- injection E2 as _ E2. exfalso.
           apply (Hl2 it info'); [| exact Hst'].
           rewrite E2. apply in_app_iff. right. left. reflexivity.
  - intros tag info E.
    destruct (fold_add_voice_lookup list ∅ tag)
      as [[E' _] | (k1 & it & k2 & info' & Ek & Hst' & _ & E')].
    + rewrite E', lookup_empty in E. discriminate E.
    + rewrite E' in E. injection E as <-. exists it. split; [| exact Hst'].
      rewrite Ek. apply in_app_iff. right. left. reflexivity.
Qed.

End VoicesFacts.

Section VoicesRuns.
Import Voices.

(** An old catalog survives a reply that is not OK. *)
Lemma loadVoices_failure_keeps_witness :
  loadVoices Z (fun x => negb (x =? 0)%Z) true
    {[ str "Alice" := fallback_voice Z ]} (HttpError Z) !! str "Alice"
  = Some (fallback_voice Z).
Proof.
  rewrite (loadVoices_failure_keeps Z (fun x => negb (x =? 0)%Z) true
             {[ str "Alice" := fallback_voice Z ]} (HttpError Z)).
  - reflexivity.
  - intros data list E. discriminate E.
Defined.

(** Two items with the same tag: the second one wins, and the voice known
    before the call is gone. *)
Lemma loadVoices_success_witness :
  loadVoices Z (fun x => negb (x =? 0)%Z) true
    {[ str "Old" := fallback_voice Z ]}
    (Parsed Z
       (JObj Z
          [(str "data",
            JObj Z
              [(str "list",
                JArr Z
                  [JObj Z [(str "tag", JStr Z (str "Alice"));
                           (str "title", JStr Z (str "First"))];
                   JNull Z;
                   JObj Z [(str "tag", JStr Z (str "Alice"));
                           (str "icon", JNum Z 0%Z)]])])]))
    !! str "Alice"
  = Some {| name := JStr Z (str "Alice"); iconUrl := JStr Z [] |}.
Proof.
  set (first := JObj Z [(str "tag", JStr Z (str "Alice"));
                        (str "title", JStr Z (str "First"))]).
  set (second := JObj Z [(str "tag", JStr Z (str "Alice"));
                         (str "icon", JNum Z 0%Z)]).
  destruct (loadVoices_success Z (fun x => negb (x =? 0)%Z) true
              {[ str "Old" := fallback_voice Z ]}
              (JObj Z
                 [(str "data",
                   JObj Z [(str "list", JArr Z [first; JNull Z; second])])])
              [first; JNull Z; second] second (str "Alice")
              {| name := JStr Z (str "Alice"); iconUrl := JStr Z [] |})
    as [Hlast _].
  - eexists _, _. repeat split; reflexivity.
  - right. right. left. reflexivity.
  - split; [reflexivity | intros E; discriminate E].
  - apply (Hlast [first; JNull Z] second [] (str "Alice")).
    + reflexivity.
    + split; [reflexivity | intros E; discriminate E].
    + intros x info' [].
Defined.

End VoicesRuns.

(** ** How many segments *)

Section SegmenterMore.
Import Segmenter.
Local Open Scope Z_scope.

Lemma nonempty_count (l : list jsstring) :
  Forall (fun s => s <> []) l -> (List.length l <= List.length (concat l))%nat.
Proof.
  induction l as [| s l IH]; intros H; [simpl; lia |].
  inversion H as [| ? ? Hs Hl]; subst. specialize (IH Hl).
  simpl. rewrite length_app. destruct s; [contradiction | simpl; lia].
Qed.

Lemma filter_concat_length (f : jsstring -> bool) (l : list jsstring) :
  (List.length (concat (List.filter f l)) <= List.length (concat l))%nat.
Proof.
  induction l as [| s l IH]; [simpl; lia |].
  simpl. destruct (f s); simpl; rewrite ?length_app; lia.
Qed.

Lemma segments_at_most (text : jsstring) (maxLen : Z) :
  (List.length (splitText text maxLen)
   <= Nat.max 1 (List.length text))%nat.
Proof.
  unfold splitText.
  destruct (Z.leb_spec (Z.of_nat (List.length text)) maxLen); [simpl; lia |].
  set (keep := fun s : jsstring => 0 <? Z.of_nat (List.length (trim s))).
  assert (Hne : Forall (fun s : jsstring => s <> [])
                  (List.filter keep (unfiltered text maxLen))).
  { apply List.Forall_forall. intros s Hs.
    apply filter_In in Hs as [_ Hk]. apply kept_not_blank in Hk.
    intros ->. apply Hk. reflexivity. }
  apply nonempty_count in Hne.
  pose proof (filter_concat_length keep (unfiltered text maxLen)) as Hf.
  rewrite unfiltered_concat in Hf. lia.
Qed.

(** X13. [splitText] never returns more segments than the text has
    characters, and one segment when the text is empty: a text of [n]
    characters is never turned into more than [max(1, n)] requests. *)
Theorem splitText_count (text : jsstring) (maxLen : Z) :
  (List.length (splitText text maxLen)
   <= Nat.max 1 (List.length text))%nat.
Proof. apply segments_at_most. Qed.

End SegmenterMore.

(** ** The request sent upstream *)

Section UpstreamFacts.
Import Headers Upstream.
Local Open Scope string_scope.

Variable md5 : jsstring -> jsstring.
Variable encodeURIComponent : jsstring -> option jsstring.

(** X14. When the text can be encoded, the request of [getAudio] carries
    the seven forged fields as [getHeaders] made them, [zm-token] still the
    digest of the other four and of the version, and one more field,
    [Content-Type]: eight fields in all. *)
Theorem getAudio_request_headers (env : ambient) (text voice encoded : jsstring) :
  encodeURIComponent text = Some encoded ->
  exists r,
    getAudio_request md5 encodeURIComponent env text voice = Some r
    /\ dom (Upstream.headers r) = field_names ∪ {[ "Content-Type" ]}
    /\ size (Upstream.headers r) = 8
    /\ (forall name, name ∈ field_names ->
          Upstream.headers r !! name = getHeaders md5 env !! name)
    /\ Upstream.headers r !! "zm-token"
       = Some (md5 (str "Web" ++ getIso8601Time env ++ str "1.2"
                    ++ generateMid env ++ md5 ua)%list)
    /\ Upstream.body r
       = (str "&text=" ++ encoded ++ str "&audio_type=mp3&format=stream")%list.
Proof.
  intros E. unfold getAudio_request. rewrite E. eexists. split; [reflexivity |].
  cbn [Upstream.headers Upstream.body].
  split; [| split; [| split; [| split; [| reflexivity]]]].
  - rewrite dom_insert_L, getHeaders_dom. apply (comm_L (∪)).
  - rewrite map_size_insert_None, getHeaders_size; [reflexivity |].
    apply not_elem_of_dom. rewrite getHeaders_dom. unfold field_names.
    rewrite !not_elem_of_union, !not_elem_of_singleton.
    repeat split; discriminate.
  - intros name Hn. apply lookup_insert_ne. intros <-.
    revert Hn. unfold field_names.
    rewrite !elem_of_union, !elem_of_singleton. intuition discriminate.
  - rewrite lookup_insert_ne by discriminate.
    unfold getHeaders.
    repeat (rewrite lookup_insert_ne by discriminate).
    apply lookup_insert_eq.
Qed.

End UpstreamFacts.

Lemma getAudio_request_headers_witness :
  exists r,
    Upstream.getAudio_request (fun s => s) Some
      {| Headers.getIso8601Time := str "2026-01-01T08:00:00.000+08:00";
         Headers.generateMid := str "12481275546116860141324206091730" |}
      (str "Hi") (str "DeepSeek") = Some r
    /\ size (Upstream.headers r) = 8.
Proof.
  destruct (getAudio_request_headers (fun s => s) Some
              {| Headers.getIso8601Time := str "2026-01-01T08:00:00.000+08:00";
                 Headers.generateMid := str "12481275546116860141324206091730" |}
              (str "Hi") (str "DeepSeek") (str "Hi") eq_refl)
    as (r & E & _ & Hsize & _).
  exists r. split; [exact E | exact Hsize].
Defined.

(** ** The request handler *)

Section GeneratorEnds.
Import Chunks.

Variable texts : list jsstring.
Variable fetch : nat -> outcome.

Lemma batches_total sched c fuel bs st :
  1 <= c -> length texts <= bs + fuel * c ->
  exists trace, batches texts fetch sched c fuel bs st = Some trace.
Proof.
  intros Hc. revert bs st.
  induction fuel as [| fuel IH]; intros bs st Hfuel; cbn [batches];
    destruct (Nat.leb_spec (length texts) bs) as [Hdone | Hmore];
    try (eexists; reflexivity).
  - lia.
  - apply IH. lia.
Qed.

(** With a concurrency of one or more the generator always ends, whatever
    the requests do and in whatever order they complete. *)
Lemma getAudioChunks_total sched (concurrency : Z) :
  exists trace, getAudioChunks texts fetch sched concurrency = Some trace.
Proof.
  unfold getAudioChunks.
  destruct (Z.leb_spec concurrency 1) as [Hc | Hc];
    [eexists; reflexivity |].
  destruct (length texts <=? 2); [eexists; reflexivity |].
  cbn [orb]. apply batches_total; nia.
Qed.

End GeneratorEnds.

Section ServerFacts.
Import Voices Chunks Flight Server.

Variable num : Type.
Variable num_truthy : num -> bool.

Lemma authorized_iff (env : environment num) (req : request num) :
  authorized num env req = true
  <-> authorization num req = Some (bearer num env).
Proof.
  unfold authorized. destruct (authorization num req) as [auth |].
  - rewrite andb_true_iff, bool_decide_eq_true. split.
    + intros [_ ->]. reflexivity.
    + intros E. injection E as ->. split; reflexivity.
  - split; discriminate.
Qed.

Lemma cors_in_json_headers : CORS_HEADERS ⊆ json_headers.
Proof. apply map_union_subseteq_l. Qed.

Lemma generate_total (env : environment num) voice segs :
  exists trace finished,
    generate num env voice segs = Some (trace, finished).
Proof.
  destruct segs as [chunks | items |]; cbn [generate].
  - destruct (getAudioChunks_total chunks
                (fun i => getAudio num env voice (chunks !! i) i)
                (sched num env) 3) as [trace ->].
    eexists _, _. reflexivity.
  - destruct (unprintable num env _); [eexists _, _; reflexivity |].
    destruct (getAudioChunks_total
                [default [] (ToString num env (JArr num items))]
                (fun i => getAudio num env voice
                            (ToString num env (JArr num items)) i)
                (sched num env) 3) as [trace ->].
    eexists _, _. reflexivity.
  - eexists _, _. reflexivity.
Qed.

(** A generator that throws does so before [getAudio] is ever called. *)
Lemma generate_thrown (env : environment num) voice segs trace :
  generate num env voice segs = Some (trace, false) -> trace = [].
Proof.
  destruct segs as [chunks | items |]; cbn [generate]; intros E.
  - destruct (getAudioChunks _ _ _ _); discriminate E.
  - destruct (unprintable num env _); [injection E as <-; reflexivity |].
    destruct (getAudioChunks _ _ _ _); discriminate E.
  - injection E as <-. reflexivity.
Qed.

Lemma speech_total (env : environment num) (req : request num) :
  exists resp trace, speech num num_truthy env req = Some (resp, trace).
Proof.
  unfold speech, caught, reply.
  repeat (case_match; try (eexists _, _; reflexivity)).
  match goal with
  | H : generate num env ?v ?segs = None |- _ =>
      destruct (generate_total env v segs) as (t & f & E); congruence
  end.
Qed.

(** The handler answers every request. *)
Lemma handler_total (env : environment num) (req : request num) :
  exists resp trace,
    Server.handler num num_truthy env req = Some (resp, trace).
Proof.
  unfold Server.handler, reply.
  repeat (case_match; try (eexists _, _; reflexivity)).
  apply speech_total.
Qed.

Ltac handler_cases H :=
  unfold Server.handler, speech, caught, reply in H;
  repeat (case_match; simplify_eq); cbn [status headers body] in *.

Ltac read_tests :=
  repeat match goal with
    | Hb : _ && _ = true |- _ => apply andb_true_iff in Hb as [? ?]
    | Hb : bool_decide _ = true |- _ => apply bool_decide_eq_true in Hb
    | Hb : bool_decide _ = false |- _ => apply bool_decide_eq_false in Hb
    | Hb : negb _ = false |- _ => apply negb_false_iff in Hb
    | Hb : negb _ = true |- _ => apply negb_true_iff in Hb
    | Hb : authorized _ _ _ = true |- _ => apply authorized_iff in Hb
    end.

Lemma unauthorized_reply (env : environment num) (req : request num) :
  method num req <> str "OPTIONS" ->
  pathname num req <> str "/ping" ->
  authorization num req <> Some (bearer num env) ->
  Server.handler num num_truthy env req
  = Some ({| status := 401%Z; headers := json_headers;
             body := JsonError num (str "Unauthorized") |}, []).
Proof.
  intros Hm Hp Ha. unfold Server.handler.
  rewrite !bool_decide_eq_false_2 by assumption.
  destruct (authorized num env req) eqn:E; [| reflexivity].
  apply authorized_iff in E. contradiction.
Qed.

(** X15. The handler answers every request, and answers 401 exactly when
    the request is neither OPTIONS nor [/ping] and its [Authorization]
    header is not [Bearer] followed by the key; the 401 answer is the
    [Unauthorized] reply and comes without any call upstream. *)
Theorem handler_unauthorized (env : environment num) (req : request num) :
  exists resp trace,
    Server.handler num num_truthy env req = Some (resp, trace)
    /\ (status num resp = 401%Z
        <-> method num req <> str "OPTIONS"
            /\ pathname num req <> str "/ping"
            /\ authorization num req <> Some (bearer num env))
    /\ (status num resp = 401%Z ->
        resp = {| status := 401%Z; headers := json_headers;
                  body := JsonError num (str "Unauthorized") |}
        /\ trace = []).
Proof.
  destruct (handler_total env req) as (resp & trace & E).
  exists resp, trace. split; [exact E |].
  assert (Hfwd : status num resp = 401%Z ->
                 (method num req <> str "OPTIONS"
                  /\ pathname num req <> str "/ping"
                  /\ authorization num req <> Some (bearer num env))
                 /\ resp = {| status := 401%Z; headers := json_headers;
                              body := JsonError num (str "Unauthorized") |}
                 /\ trace = []).
  { intros Hs. handler_cases E; try discriminate Hs.
    read_tests.
    split; [| split; reflexivity].
    split; [assumption |]. split; [assumption |].
    intros Ha. apply authorized_iff in Ha. congruence. }
  split; [split |].
  - intros Hs. exact (proj1 (Hfwd Hs)).
  - intros (Hm & Hp & Ha).
    rewrite (unauthorized_reply env req Hm Hp Ha) in E.
    injection E as <- _. reflexivity.
  - intros Hs. exact (proj2 (Hfwd Hs)).
Qed.

(** X16. The handler answers every request, whatever the JSON value of its
    body, and every response carries the three CORS headers with their
    fixed values, whatever the route and the outcome. *)
Theorem handler_cors (env : environment num) (req : request num) :
  exists resp trace,
    Server.handler num num_truthy env req = Some (resp, trace)
    /\ CORS_HEADERS ⊆ headers num resp.
Proof.
  destruct (handler_total env req) as (resp & trace & E).
  exists resp, trace. split; [exact E |].
  handler_cases E;
    first [ reflexivity | apply map_union_subseteq_l ].
Qed.

(** X17. The handler calls [getAudio], and so sends requests upstream, only
    for an authorized POST to [/v1/audio/speech] that it answers with 200:
    every other response, each error reply among them, comes without any
    call. *)
Theorem handler_requests_only_speech (env : environment num)
    (req : request num) :
  exists resp trace,
    Server.handler num num_truthy env req = Some (resp, trace)
    /\ (trace <> [] ->
        method num req = str "POST"
        /\ pathname num req = str "/v1/audio/speech"
        /\ authorization num req = Some (bearer num env)
        /\ status num resp = 200%Z).
Proof.
  destruct (handler_total env req) as (resp & trace & E).
  exists resp, trace. split; [exact E |]. intros Ht.
  handler_cases E; try contradiction.
  all: try match goal with
         | Hg : generate _ _ _ _ = Some (_, false) |- _ =>
             apply generate_thrown in Hg; contradiction
         end.
  all: read_tests.
  all: split; [assumption |]; split; [assumption |];
       split; [assumption | reflexivity].
Qed.


(** X19. Without [stream], a 200 answer of [/v1/audio/speech] has for body
    the chunks of the generator end to end, for [Content-Length] the
    decimal length of that body, and for type [audio/mpeg]. *)
Theorem speech_whole_body (env : environment num) (req : request num)
    (data : jsval num) :
  pathname num req = str "/v1/audio/speech" ->
  json num req = Some data ->
  truthy num num_truthy (get num data (str "stream")) = false ->
  exists resp trace,
    Server.handler num num_truthy env req = Some (resp, trace)
    /\ (status num resp = 200%Z ->
        body num resp = Audio num (audio trace)
        /\ headers num resp !! "Content-Length"%string
           = Some (Session.Number_toString
                     (Z.of_nat (length (audio trace))))
        /\ headers num resp !! "Content-Type"%string
           = Some (str "audio/mpeg")).
Proof.
  intros Hp Hj Hstream.
  destruct (handler_total env req) as (resp & trace & E).
  exists resp, trace. split; [exact E |]. intros Hs.
  unfold Server.handler in E. rewrite Hp in E.
  rewrite (bool_decide_eq_false_2 (str "/v1/audio/speech" = str "/ping"))
    in E by discriminate.
  rewrite (bool_decide_eq_false_2 (str "/v1/audio/speech" = str "/v1/models"))
    in E by discriminate.
  cbn [andb] in E. unfold speech, caught, reply in E. rewrite Hj in E.
  repeat (case_match; simplify_eq); cbn [status headers body] in *;
    try discriminate; try congruence.
  unfold audio. rewrite merge_concat, total_length. cbn [Nat.add].
  split; [reflexivity |]. split.
  - rewrite lookup_union_r by reflexivity. apply lookup_insert_eq.
  - rewrite lookup_union_r by reflexivity.
    rewrite lookup_insert_ne by discriminate. apply lookup_singleton_eq.
Qed.

End ServerFacts.

Section ServerRuns.
Import Voices Chunks Flight Server.

Lemma handler_unauthorized_witness :
  exists resp trace,
    Server.handler Z (fun x => negb (x =? 0)%Z)
      ({| STATIC_API_KEY := str "sk-123456"; SERVICE_START_TIME := 0;
           voices := ∅;
           upstream := fun _ _ _ => Body [[Byte.x01; Byte.x02]] true;
           sched := fun bs => rev (batch_indices 5 3 bs);
           encodeURIComponent := Some;
           ToString := fun _ => None;
           GreaterThan := fun _ _ => None;
           LessThanOrEqual := fun _ _ => None |} : environment Z)
      ({| method := str "GET"; pathname := str "/v1/models";
           authorization := None;
           json := None |} : request Z)
    = Some (resp, trace)
    /\ status Z resp = 401%Z /\ trace = [].
Proof.
  destruct (handler_unauthorized Z (fun x => negb (x =? 0)%Z)
              ({| STATIC_API_KEY := str "sk-123456"; SERVICE_START_TIME := 0;
           voices := ∅;
           upstream := fun _ _ _ => Body [[Byte.x01; Byte.x02]] true;
           sched := fun bs => rev (batch_indices 5 3 bs);
           encodeURIComponent := Some;
           ToString := fun _ => None;
           GreaterThan := fun _ _ => None;
           LessThanOrEqual := fun _ _ => None |} : environment Z)
              ({| method := str "GET"; pathname := str "/v1/models";
           authorization := None;
           json := None |} : request Z))
    as (resp & trace & E & Hiff & Hshape).
  assert (Hs : status Z resp = 401%Z).
  { apply Hiff. split; [discriminate |]. split; discriminate. }
  exists resp, trace. split; [exact E |].
  split; [exact Hs | exact (proj2 (Hshape Hs))].
Defined.

Lemma handler_requests_only_speech_witness :
  exists resp trace,
    Server.handler Z (fun x => negb (x =? 0)%Z)
      ({| STATIC_API_KEY := str "sk-123456"; SERVICE_START_TIME := 0;
           voices := ∅;
           upstream := fun _ _ _ => Body [[Byte.x01; Byte.x02]] true;
           sched := fun bs => rev (batch_indices 5 3 bs);
           encodeURIComponent := Some;
           ToString := fun _ => None;
           GreaterThan := fun _ _ => None;
           LessThanOrEqual := fun _ _ => None |} : environment Z)
      ({| method := str "POST"; pathname := str "/v1/audio/speech";
           authorization := Some (str "Bearer sk-123456");
           json := Some (JObj Z [(str "input", JStr Z (concat (replicate 5 (replicate 50 97%Z ++ [46%Z]))))]) |} : request Z)
    = Some (resp, trace)
    /\ trace <> [] /\ status Z resp = 200%Z.
Proof.
  destruct (handler_requests_only_speech Z (fun x => negb (x =? 0)%Z)
              ({| STATIC_API_KEY := str "sk-123456"; SERVICE_START_TIME := 0;
           voices := ∅;
           upstream := fun _ _ _ => Body [[Byte.x01; Byte.x02]] true;
           sched := fun bs => rev (batch_indices 5 3 bs);
           encodeURIComponent := Some;
           ToString := fun _ => None;
           GreaterThan := fun _ _ => None;
           LessThanOrEqual := fun _ _ => None |} : environment Z)
              ({| method := str "POST"; pathname := str "/v1/audio/speech";
           authorization := Some (str "Bearer sk-123456");
           json := Some (JObj Z [(str "input", JStr Z (concat (replicate 5 (replicate 50 97%Z ++ [46%Z]))))]) |} : request Z))
    as (resp & trace & E & Honly).
  assert (Ht : trace <> []).
  { pose proof E as E'. vm_compute in E'. injection E' as _ <-.
    discriminate. }
  exists resp, trace. split; [exact E |]. split; [exact Ht |].
  apply (Honly Ht).
Defined.


Lemma speech_whole_body_witness :
  exists resp trace,
    Server.handler Z (fun x => negb (x =? 0)%Z)
      ({| STATIC_API_KEY := str "sk-123456"; SERVICE_START_TIME := 0;
           voices := ∅;
           upstream := fun _ _ _ => Body [[Byte.x01; Byte.x02]] true;
           sched := fun bs => rev (batch_indices 5 3 bs);
           encodeURIComponent := Some;
           ToString := fun _ => None;
           GreaterThan := fun _ _ => None;
           LessThanOrEqual := fun _ _ => None |} : environment Z)
      ({| method := str "POST"; pathname := str "/v1/audio/speech";
           authorization := Some (str "Bearer sk-123456");
           json := Some (JObj Z [(str "input", JStr Z (concat (replicate 5 (replicate 50 97%Z ++ [46%Z]))))]) |} : request Z)
    = Some (resp, trace)
    /\ body Z resp = Audio Z (audio trace).
Proof.
  destruct (speech_whole_body Z (fun x => negb (x =? 0)%Z)
              ({| STATIC_API_KEY := str "sk-123456"; SERVICE_START_TIME := 0;
           voices := ∅;
           upstream := fun _ _ _ => Body [[Byte.x01; Byte.x02]] true;
           sched := fun bs => rev (batch_indices 5 3 bs);
           encodeURIComponent := Some;
           ToString := fun _ => None;
           GreaterThan := fun _ _ => None;
           LessThanOrEqual := fun _ _ => None |} : environment Z)
              ({| method := str "POST"; pathname := str "/v1/audio/speech";
           authorization := Some (str "Bearer sk-123456");
           json := Some (JObj Z [(str "input", JStr Z (concat (replicate 5 (replicate 50 97%Z ++ [46%Z]))))]) |} : request Z)
              (JObj Z [(str "input", JStr Z (concat (replicate 5 (replicate 50 97%Z ++ [46%Z]))))]) eq_refl eq_refl eq_refl)
    as (resp & trace & E & Hbody).
  exists resp, trace. split; [exact E |].
  apply Hbody. pose proof E as E'. vm_compute in E'.
  injection E' as <- _. reflexivity.
Defined.

End ServerRuns.
